(** * LEADS: reconciliation, mining fold and lead lifecycle

    A shallow embedding of the data-handling code of the LEADS application
    (App.tsx, services/gemini.ts, types.ts) together with the properties
    that its specification states about it.

    Conventions of the embedding.
    - A JavaScript string is a [string]: a character of ASCII stands for
      itself, any other character stands as the bytes of its UTF-8 encoding.
      The regular expression classes [[^a-z0-9]] and [\D] are classes of
      ASCII characters, so they are predicates on bytes.  What counts
      characters ([trim], [substring], [slice], [length], indexing) is
      applied by the code to ASCII text only, to what a replacement over
      such a class has left.
    - What the code takes from the JavaScript engine and has no closed
      description, or is left open by the language standard, is a parameter
      of the embedding ([Engine.t]): the case mappings of text that is not
      all ASCII, [Date.parse] of a string that is not a valid timestamp of
      one of the two ISO shapes, the source text of a built-in function.
      Where the standard fixes the result it is computed.
    - An optional field ([campaignId?], [lastSeenAt?], [notes?]) is an
      [option]; [None] is JavaScript's [undefined].
    - A JavaScript [Map] keeps its entries in insertion order, and [set] on a
      key already present replaces the value where the entry stands: it is an
      association list ([JsMap]).  A plain object used as a dictionary
      ([leadRemapping]) is the finite map of its own properties, read
      together with what every object inherits from [Object.prototype]
      ([JsObject]).
    - React state is passed explicitly.  A handler reads the constants that
      [useState] bound in the render which created it; a setter does not
      change them.  The handlers below therefore take those constants as
      arguments and return the values handed to the setters. *)

From stdpp Require Import base option list sorting gmap strings.
From Stdlib Require Import ZArith Ascii String Lia.

Open Scope string_scope.
Open Scope list_scope.

(** ** The JavaScript engine *)

Module Engine.
Record t := mk {
  (** [s.toLowerCase()] and [s.toUpperCase()] for a string [s] with a
      character outside ASCII *)
  toLowerCase : string -> string;
  toUpperCase : string -> string;
  (** [Date.parse(s)] for a string [s] that is not a valid timestamp of the
      shapes [YYYY-MM-DD] and [YYYY-MM-DDTHH:mm:ss.sssZ]; [None] is [NaN] *)
  dateParse : string -> option Z;
  (** [String(f)] for the built-in function [f] that [Object.prototype]
      holds under the name given *)
  nativeSource : string -> string
}.
End Engine.

(** ** Strings *)

Module JsString.

Definition is_upper (c : ascii) : bool :=
  let n := N_of_ascii c in ((65 <=? n) && (n <=? 90))%N.

Definition is_lower (c : ascii) : bool :=
  let n := N_of_ascii c in ((97 <=? n) && (n <=? 122))%N.

Definition is_digit (c : ascii) : bool :=
  let n := N_of_ascii c in ((48 <=? n) && (n <=? 57))%N.

(** The white space of ASCII. *)
Definition is_space (c : ascii) : bool :=
  let n := N_of_ascii c in
  ((n =? 32) || ((9 <=? n) && (n <=? 13)))%N.

Definition lower_ascii (c : ascii) : ascii :=
  if is_upper c then ascii_of_N (N_of_ascii c + 32) else c.

Fixpoint asciiToLowerCase (s : string) : string :=
  match s with
  | EmptyString => EmptyString
  | String c s' => String (lower_ascii c) (asciiToLowerCase s')
  end.

Definition upper_ascii (c : ascii) : ascii :=
  if is_lower c then ascii_of_N (N_of_ascii c - 32) else c.

Fixpoint asciiToUpperCase (s : string) : string :=
  match s with
  | EmptyString => EmptyString
  | String c s' => String (upper_ascii c) (asciiToUpperCase s')
  end.

Definition is_ascii (c : ascii) : bool := (N_of_ascii c <? 128)%N.

(** The text has no character outside ASCII. *)
Fixpoint isAscii (s : string) : bool :=
  match s with
  | EmptyString => true
  | String c s' => is_ascii c && isAscii s'
  end.

(** [s.toLowerCase()] and [s.toUpperCase()]: in ASCII text the letters
    change case and nothing else changes; any other text is mapped by the
    engine. *)
Definition toLowerCase (e : Engine.t) (s : string) : string :=
  if isAscii s then asciiToLowerCase s else Engine.toLowerCase e s.

Definition toUpperCase (e : Engine.t) (s : string) : string :=
  if isAscii s then asciiToUpperCase s else Engine.toUpperCase e s.

(** [s.replace(/re/g, '')] for a one-character class: keep the characters
    outside the class. *)
Fixpoint keep (p : ascii -> bool) (s : string) : string :=
  match s with
  | EmptyString => EmptyString
  | String c s' => if p c then String c (keep p s') else keep p s'
  end.

Fixpoint trimStart (s : string) : string :=
  match s with
  | EmptyString => EmptyString
  | String c s' => if is_space c then trimStart s' else s
  end.

Fixpoint rev_onto (s acc : string) : string :=
  match s with
  | EmptyString => acc
  | String c s' => rev_onto s' (String c acc)
  end.

Definition rev (s : string) : string := rev_onto s EmptyString.

(** [s.trim()] for ASCII text. *)
Definition trim (s : string) : string := rev (trimStart (rev (trimStart s))).

(** [s.substring(0, n)] for ASCII text. *)
Fixpoint substring0 (n : nat) (s : string) : string :=
  match n, s with
  | O, _ => EmptyString
  | S n', EmptyString => EmptyString
  | S n', String c s' => String c (substring0 n' s')
  end.

Fixpoint drop (n : nat) (s : string) : string :=
  match n, s with
  | O, _ => s
  | S n', EmptyString => EmptyString
  | S n', String _ s' => drop n' s'
  end.

(** [s.slice(-n)] for ASCII text: the last [n] characters, the whole string
    when shorter. *)
Definition sliceLast (n : nat) (s : string) : string :=
  drop (String.length s - n) s.

Fixpoint startsWith (p s : string) : bool :=
  match p, s with
  | EmptyString, _ => true
  | String _ _, EmptyString => false
  | String a p', String b s' => bool_decide (a = b) && startsWith p' s'
  end.

(** [s.includes(p)] *)
Fixpoint includes (p s : string) : bool :=
  startsWith p s ||
  match s with
  | EmptyString => false
  | String _ s' => includes p s'
  end.

(** A string in a boolean position: only the empty string is falsy. *)
Definition truthy (s : string) : bool := negb (bool_decide (s = "")).

(** [`${x}`] for an optional string. *)
Definition template (o : option string) : string :=
  match o with
  | Some s => s
  | None => "undefined"
  end.

End JsString.

(** ** Records of types.ts *)

Inductive Status := new | contacted | interested | closed | rejected | outdated.

Inductive PhoneType := mobile | landline | unknown.

(** What the [campaignId] of a lead holds when it is there: a string; or,
    once the remap of the merge has read an inherited member out of its
    table, that member of [Object.prototype], named by its property name. *)
Inductive CampaignRef :=
| Str (s : string)
| Member (name : string).

Module BusinessInfo.
Record t := mk {
  id : string;
  name : string;
  phone : string;
  whatsappUrl : string;
  instagram : option string;
  facebook : option string;
  email : option string;
  website : option string;
  status : Status;
  neighborhood : string;
  type : PhoneType;
  notes : option string;
  lastSeenAt : option string;
  campaignId : option CampaignRef
}.

(** [{ ...l, campaignId: c }] *)
Definition with_campaignId (c : option CampaignRef) (l : t) : t :=
  mk (id l) (name l) (phone l) (whatsappUrl l) (instagram l) (facebook l)
     (email l) (website l) (status l) (neighborhood l) (type l) (notes l)
     (lastSeenAt l) c.

(** [{ ...l, status: s }] *)
Definition with_status (s : Status) (l : t) : t :=
  mk (id l) (name l) (phone l) (whatsappUrl l) (instagram l) (facebook l)
     (email l) (website l) s (neighborhood l) (type l) (notes l)
     (lastSeenAt l) (campaignId l).

(** [{ ...l, notes: n }] *)
Definition with_notes (n : string) (l : t) : t :=
  mk (id l) (name l) (phone l) (whatsappUrl l) (instagram l) (facebook l)
     (email l) (website l) (status l) (neighborhood l) (type l) (Some n)
     (lastSeenAt l) (campaignId l).

(** [{ ...biz, campaignId: c, lastSeenAt: now }] *)
Definition stamped (c now : string) (l : t) : t :=
  mk (id l) (name l) (phone l) (whatsappUrl l) (instagram l) (facebook l)
     (email l) (website l) (status l) (neighborhood l) (type l) (notes l)
     (Some now) (Some (Str c)).
End BusinessInfo.

Module Campaign.
Record t := mk {
  id : string;
  niche : string;
  city : string;
  createdAt : string;
  lastSyncAt : string
}.
End Campaign.

#[global] Instance Status_eq_dec : EqDecision Status.
Proof. solve_decision. Defined.

#[global] Instance PhoneType_eq_dec : EqDecision PhoneType.
Proof. solve_decision. Defined.

#[global] Instance CampaignRef_eq_dec : EqDecision CampaignRef.
Proof. solve_decision. Defined.

#[global] Instance BusinessInfo_eq_dec : EqDecision BusinessInfo.t.
Proof. solve_decision. Defined.

#[global] Instance Campaign_eq_dec : EqDecision Campaign.t.
Proof. solve_decision. Defined.

(** ** JavaScript [Map]: insertion-ordered, [set] replaces in place *)

Module JsMap.
Section Ops.
Context {V : Type}.

Definition t := list (string * V).

Definition empty : t := [].

Fixpoint set (k : string) (v : V) (m : t) : t :=
  match m with
  | [] => [(k, v)]
  | (k', v') :: m' =>
      if decide (k' = k) then (k, v) :: m' else (k', v') :: set k v m'
  end.

Fixpoint get (k : string) (m : t) : option V :=
  match m with
  | [] => None
  | (k', v') :: m' => if decide (k' = k) then Some v' else get k m'
  end.

Definition has (k : string) (m : t) : bool :=
  match get k m with Some _ => true | None => false end.

Definition keys (m : t) : list string := m.*1.

(** [Array.from(m.values())] *)
Definition values (m : t) : list V := m.*2.

(** [new Map(entries)], and equally [entries.forEach(e => m.set(...))]
    started from [m]. *)
Definition set_all (entries : list (string * V)) (m : t) : t :=
  fold_left (fun acc e => set e.1 e.2 acc) entries m.

Definition of_entries (entries : list (string * V)) : t :=
  set_all entries empty.
End Ops.
Arguments t : clear implicits.
End JsMap.

(** ** A plain object used as a dictionary of strings *)

Module JsObject.

(** The own properties of the object; its prototype is [Object.prototype]. *)
Abbreviation t := (gmap string string).

(** The names under which [Object.prototype] has a member. *)
Definition members : list string :=
  ["constructor"; "__defineGetter__"; "__defineSetter__"; "hasOwnProperty";
   "__lookupGetter__"; "__lookupSetter__"; "isPrototypeOf";
   "propertyIsEnumerable"; "toString"; "valueOf"; "__proto__";
   "toLocaleString"].

(** [o[k] = v] for a string [v].  [__proto__] is an accessor of the
    prototype and its setter does nothing with a string; under any other
    name the assignment writes an own property. *)
Definition set (k v : string) (o : t) : t :=
  if decide (k = "__proto__") then o else <[k := v]> o.

(** What [o[k]] reads: an own property, else the member of the prototype
    under that name ([Object.prototype] itself for [__proto__], a built-in
    function for the others), else [undefined]. *)
Inductive Read :=
| Own (v : string)
| Inherited (name : string)
| Undefined.

Definition get (k : string) (o : t) : Read :=
  match o !! k with
  | Some v => Own v
  | None => if decide (k ∈ members) then Inherited k else Undefined
  end.

End JsObject.

(** ** What a handler reads *)

(** The constants that the render which created the handler bound. *)
Module App.
Record t := mk {
  campaigns : list Campaign.t;
  leads : list BusinessInfo.t;
  errorMessage : option string;
  niche : string;
  city : string;
  selectedNeighborhoods : list string
}.
End App.

(** ** Timestamps: [new Date(s).getTime()] *)

Module JsDate.
Open Scope Z_scope.

Fixpoint digits_acc (s : string) (acc : Z) : option Z :=
  match s with
  | EmptyString => Some acc
  | String c s' =>
      if JsString.is_digit c
      then digits_acc s' (10 * acc + (Z.of_N (N_of_ascii c) - 48))
      else None
  end.

(** A non-empty run of decimal digits. *)
Definition digits (s : string) : option Z :=
  match s with
  | EmptyString => None
  | _ => digits_acc s 0
  end.

Definition isLeap (y : Z) : bool :=
  ((y mod 4 =? 0) && negb (y mod 100 =? 0)) || (y mod 400 =? 0).

Definition daysInMonth (y m : Z) : Z :=
  if m =? 2 then (if isLeap y then 29 else 28)
  else if (m =? 4) || (m =? 6) || (m =? 9) || (m =? 11) then 30
  else 31.

(** Days from 1970-01-01 to the civil date [y]-[m]-[d]. *)
Definition daysFromCivil (y m d : Z) : Z :=
  let y' := if m <=? 2 then y - 1 else y in
  let era := y' / 400 in
  let yoe := y' - era * 400 in
  let mp := if 2 <? m then m - 3 else m + 9 in
  let doy := (153 * mp + 2) / 5 + d - 1 in
  let doe := yoe * 365 + yoe / 4 - yoe / 100 + doy in
  era * 146097 + doe - 719468.

Definition field (from len : nat) (s : string) : option Z :=
  digits (String.substring from len s).

Definition sep (at_ : nat) (c : string) (s : string) : bool :=
  bool_decide (String.substring at_ 1 s = c).

(** The date part, [YYYY-MM-DD], as milliseconds at midnight UTC. *)
Definition parseDay (s : string) : option Z :=
  y ← field 0 4 s; m ← field 5 2 s; d ← field 8 2 s;
  if sep 4 "-" s && sep 7 "-" s
     && (1 <=? m) && (m <=? 12) && (1 <=? d) && (d <=? daysInMonth y m)
  then Some (daysFromCivil y m d * 86400000) else None.

(** The time part, [THH:mm:ss.sssZ], as milliseconds. *)
Definition parseTime (s : string) : option Z :=
  h ← field 11 2 s; mi ← field 14 2 s; se ← field 17 2 s; ms ← field 20 3 s;
  if sep 10 "T" s && sep 13 ":" s && sep 16 ":" s && sep 19 "." s && sep 23 "Z" s
     && (h <=? 23) && (mi <=? 59) && (se <=? 59)
  then Some (((h * 60 + mi) * 60 + se) * 1000 + ms) else None.

(** The time value of a valid timestamp of the date-only form or of the form
    that [toISOString] writes, both read as UTC. *)
Definition iso (s : string) : option Z :=
  if Nat.eqb (String.length s) 10 then parseDay s
  else if Nat.eqb (String.length s) 24 then
    day ← parseDay s; time ← parseTime s; Some (day + time)
  else None.

(** [Date.parse(s)]: the time value of an ISO timestamp as above; for any
    other string, what the engine makes of it.  [None] is [NaN]. *)
Definition parse (e : Engine.t) (s : string) : option Z :=
  match iso s with
  | Some t => Some t
  | None => Engine.dateParse e s
  end.

(** [new Date(lastSeenAt || 0).getTime()] *)
Definition getTime (e : Engine.t) (lastSeenAt : option string) : option Z :=
  match lastSeenAt with
  | Some s => if JsString.truthy s then parse e s else Some 0
  | None => Some 0
  end.
End JsDate.

(** ** Errors *)

(** What a provider call throws, as [withRetry] reads it: [err.message] and
    [err.status]. *)
Module JsError.
Record t := mk { message : option string; status : option Z }.
End JsError.

(** [normalize] of App.tsx keeps the characters of [[a-z0-9]]. *)
Definition alnum (c : ascii) : bool := JsString.is_lower c || JsString.is_digit c.

(** ** The engine under which the code runs *)

Section WithEngine.
Variable engine : Engine.t.

(** [normalize] of App.tsx: [(text || '').toLowerCase().replace(/[^a-z0-9]/g, '').trim()] *)
Definition normalize (text : string) : string :=
  JsString.trim (JsString.keep alnum (JsString.toLowerCase engine text)).

(** The spec's name for the campaign key. *)
Definition deriveCampaignKey (niche : string) : string := normalize niche.

(** [createNormalizedId] of services/gemini.ts *)
Definition createNormalizedId (name phone neighborhood : string) : string :=
  let cleanName :=
    JsString.substring0 15 (JsString.keep alnum (JsString.toLowerCase engine name)) in
  let cleanPhone := JsString.sliceLast 8 (JsString.keep JsString.is_digit phone) in
  let cleanNeighborhood :=
    JsString.substring0 10 (JsString.keep alnum (JsString.toLowerCase engine neighborhood)) in
  cleanName +:+ "_" +:+ cleanNeighborhood +:+ "_" +:+ cleanPhone.

(** ** The reconciliation merge ([init] of App.tsx, the body of its [try]) *)

(** [String(x)] for what a [campaignId] holds. *)
Definition printRef (r : CampaignRef) : string :=
  match r with
  | Str s => s
  | Member name =>
      if decide (name = "__proto__") then "[object Object]"
      else Engine.nativeSource engine name
  end.

(** [`${l.campaignId}`], which is also the property name in
    [leadRemapping[l.campaignId]]. *)
Definition campaignIdText (l : BusinessInfo.t) : string :=
  JsString.template (printRef <$> BusinessInfo.campaignId l).

(** The key under which [init] files a lead: [`${l.id}_${l.campaignId}`] *)
Definition leadKey (l : BusinessInfo.t) : string :=
  BusinessInfo.id l +:+ "_" +:+ campaignIdText l.

(** Step 1: campaigns of both replicas by [id], the remote one set last.
    [cData] is [None] when the remote store answered without data. *)
Definition unionCampaigns (rawCampaigns : list Campaign.t)
    (cData : option (list Campaign.t)) : list Campaign.t :=
  match cData with
  | Some cd =>
      let cMap := JsMap.set_all ((fun c => (Campaign.id c, c)) <$> rawCampaigns) JsMap.empty in
      let cMap := JsMap.set_all ((fun c => (Campaign.id c, c)) <$> cd) cMap in
      JsMap.values cMap
  | None => rawCampaigns
  end.

(** Step 2: leads of both replicas by [leadKey]. *)
Definition unionLeads (rawLeads : list BusinessInfo.t)
    (lData : option (list BusinessInfo.t)) : list BusinessInfo.t :=
  match lData with
  | Some ld =>
      let lMap := JsMap.set_all ((fun l => (leadKey l, l)) <$> rawLeads) JsMap.empty in
      let lMap := JsMap.set_all ((fun l => (leadKey l, l)) <$> ld) lMap in
      JsMap.values lMap
  | None => rawLeads
  end.

(** Step 3: the three accumulators of the duplicate-campaign pass. *)
Record Collapse := mkCollapse {
  nicheMap : JsMap.t Campaign.t;
  campaignsToRemove : list string;
  leadRemapping : JsObject.t
}.

Definition collapse0 : Collapse := mkCollapse JsMap.empty [] ∅.

(** The body of [rawCampaigns.forEach(c => ...)].  After [has] answered
    yes, [get] finds the entry ([nicheMap.get(norm)!]). *)
Definition collapseStep (st : Collapse) (c : Campaign.t) : Collapse :=
  let norm := normalize (Campaign.niche c) in
  if JsMap.has norm (nicheMap st) then
    match JsMap.get norm (nicheMap st) with
    | Some original =>
        mkCollapse (nicheMap st)
                   (campaignsToRemove st ++ [Campaign.id c])
                   (JsObject.set (Campaign.id c) (Campaign.id original) (leadRemapping st))
    | None => st
    end
  else
    mkCollapse (JsMap.set norm c (nicheMap st))
               (campaignsToRemove st)
               (leadRemapping st).

Definition collapse (rawCampaigns : list Campaign.t) : Collapse :=
  fold_left collapseStep rawCampaigns collapse0.

(** Step 4: [{ ...l, campaignId: leadRemapping[l.campaignId] || l.campaignId }].
    A string read from the table is taken unless it is empty; a member of
    the prototype is an object and is taken. *)
Definition remapCampaignId (m : JsObject.t) (l : BusinessInfo.t) : option CampaignRef :=
  match JsObject.get (campaignIdText l) m with
  | JsObject.Own canonical =>
      if JsString.truthy canonical then Some (Str canonical)
      else BusinessInfo.campaignId l
  | JsObject.Inherited name => Some (Member name)
  | JsObject.Undefined => BusinessInfo.campaignId l
  end.

Definition remapLead (m : JsObject.t) (l : BusinessInfo.t) : BusinessInfo.t :=
  BusinessInfo.with_campaignId (remapCampaignId m l) l.

(** Step 5: [Array.from(new Map(rawLeads.map(l => [key, l])).values())] *)
Definition uniqueLeads (rawLeads : list BusinessInfo.t) : list BusinessInfo.t :=
  JsMap.values (JsMap.of_entries ((fun l => (leadKey l, l)) <$> rawLeads)).

(** What the merge hands to the setters and to the remote store. *)
Record Merged := mkMerged {
  campaigns : list Campaign.t;
  leads : list BusinessInfo.t;
  cloudDeleted : list string;
  cloudSaved : option (list BusinessInfo.t)
}.

Definition mergeReplicas (localCampaigns : list Campaign.t)
    (localLeads : list BusinessInfo.t)
    (cData : option (list Campaign.t))
    (lData : option (list BusinessInfo.t)) : Merged :=
  let rawCampaigns := unionCampaigns localCampaigns cData in
  let rawLeads := unionLeads localLeads lData in
  let st := collapse rawCampaigns in
  match campaignsToRemove st with
  | [] => mkMerged rawCampaigns (uniqueLeads rawLeads) [] None
  | _ :: _ =>
      let rawCampaigns' := JsMap.values (nicheMap st) in
      let rawLeads' := remapLead (leadRemapping st) <$> rawLeads in
      mkMerged rawCampaigns' (uniqueLeads rawLeads')
               (campaignsToRemove st) (Some rawLeads')
  end.

(** The remote load as [init] sees it: either an [await] rejected, or both
    queries answered (each with or without data). *)
Inductive RemoteLoad :=
| Rejected
| Answered (cData : option (list Campaign.t)) (lData : option (list BusinessInfo.t)).

Inductive CloudStatus := online | sincronizando | offline.

(** [init]: the campaigns and leads handed to [setCampaigns] and [setLeads],
    and the cloud status. *)
Definition init (localCampaigns : list Campaign.t) (localLeads : list BusinessInfo.t)
    (remote : RemoteLoad) : list Campaign.t * list BusinessInfo.t * CloudStatus :=
  match remote with
  | Answered cData lData =>
      let m := mergeReplicas localCampaigns localLeads cData lData in
      (campaigns m, leads m, online)
  | Rejected => (localCampaigns, localLeads, offline)
  end.

(** ** The mining run ([handleStartMining] of App.tsx) *)

Record GroundingSource := mkSource { title : string; uri : string }.

Record SearchResult := mkResult {
  text : string;
  businesses : list BusinessInfo.t;
  sources : list GroundingSource
}.

(** What one call of [searchBusinesses] does: it resolves with a result, or
    it rejects with an error whose message is [message] ([err.message || ""]). *)
Inductive Outcome :=
| Resolved (result : SearchResult)
| Thrown (message : string).

(** The world outside the handler: the search provider (asked for the [i]-th
    selected neighbourhood) and the two clocks, [new Date().toISOString()] and
    [Date.now().toString()], read for the [n]-th time. *)
Record World := mkWorld {
  searchBusinesses : nat -> string -> Outcome;
  toISOString : nat -> string;
  dateNow : nat -> string
}.

(** The local variables of the run. *)
Record Mining := mkMining {
  currentLeadsState : list BusinessInfo.t;
  totalNew : nat;
  totalSkipped : nat;
  totalMobile : nat;
  totalLandline : nat;
  allSources : list GroundingSource;
  processedBairros : list string;
  tick : nat
}.

(** The existence test of the fold:
    [currentLeadsState.some(l => (l.id === biz.id && l.campaignId === targetCampaignId)
       || (bizPhone !== '' && normalize(l.phone) === bizPhone))] *)
Definition exists_in (currentLeads : list BusinessInfo.t) (targetCampaignId : string)
    (biz : BusinessInfo.t) : bool :=
  let bizPhone := normalize (BusinessInfo.phone biz) in
  existsb (fun l =>
    (bool_decide (BusinessInfo.id l = BusinessInfo.id biz)
       && bool_decide (BusinessInfo.campaignId l = Some (Str targetCampaignId)))
    || (negb (bool_decide (bizPhone = ""))
       && bool_decide (normalize (BusinessInfo.phone l) = bizPhone)))
    currentLeads.

(** The body of [result.businesses.forEach(biz => ...)], on the run's
    variables and [batchToSave]. *)
Definition foldCandidate (w : World) (targetCampaignId : string)
    (acc : Mining * list BusinessInfo.t) (biz : BusinessInfo.t)
    : Mining * list BusinessInfo.t :=
  let (st, batchToSave) := acc in
  if negb (exists_in (currentLeadsState st) targetCampaignId biz) then
    let leadData := BusinessInfo.stamped targetCampaignId (toISOString w (tick st)) biz in
    let isMobile := bool_decide (BusinessInfo.type biz = mobile) in
    (mkMining (currentLeadsState st ++ [leadData])
              (S (totalNew st))
              (totalSkipped st)
              (if isMobile then S (totalMobile st) else totalMobile st)
              (if isMobile then totalLandline st else S (totalLandline st))
              (allSources st) (processedBairros st) (S (tick st)),
     batchToSave ++ [leadData])
  else
    (mkMining (currentLeadsState st) (totalNew st) (S (totalSkipped st))
              (totalMobile st) (totalLandline st)
              (allSources st) (processedBairros st) (tick st),
     batchToSave).

(** Folding one neighbourhood's batch into the run. *)
Definition foldBatch (w : World) (targetCampaignId : string) (st : Mining)
    (batch : list BusinessInfo.t) : Mining * list BusinessInfo.t :=
  fold_left (foldCandidate w targetCampaignId) batch (st, []).

(** What the run shows: the values last handed to the setters, and the calls
    made to the remote store and to the provider. *)
Record Shown := mkShown {
  shownLeads : option (list BusinessInfo.t);
  shownError : option string;
  shownLog : nat * nat * nat * nat;
  savedBatches : list (list BusinessInfo.t);
  searched : list string
}.

Definition quotaMessage : string :=
  "Cota diária do Google atingida. Mineramos até onde foi possível. Tente novamente em 1 hora para pegar o restante dos bairros.".
Definition keyMessage : string :=
  "Erro: API Key não configurada. Vá na aba Configurações e insira sua chave do Google Gemini.".
Definition unexpectedMessage : string :=
  "Ocorreu um erro inesperado. Verifique sua conexão e sua chave de API.".

Inductive Flow := Next | Break.

(** One turn of the [for] loop: the [try] and its [catch]. *)
Definition mineNeighborhood (w : World) (targetCampaignId : string) (i : nat)
    (barrio : string) (acc : Mining * Shown) : Mining * Shown * Flow :=
  let (st, sh) := acc in
  let sh := mkShown (shownLeads sh) (shownError sh) (shownLog sh)
                    (savedBatches sh) (searched sh ++ [barrio]) in
  match searchBusinesses w i barrio with
  | Resolved result =>
      let st := mkMining (currentLeadsState st) (totalNew st) (totalSkipped st)
                         (totalMobile st) (totalLandline st)
                         (allSources st ++ sources result)
                         (processedBairros st) (tick st) in
      let (st, batchToSave) := foldBatch w targetCampaignId st (businesses result) in
      let log := (totalNew st, totalSkipped st, totalMobile st, totalLandline st) in
      let sh :=
        match batchToSave with
        | [] => mkShown (shownLeads sh) (shownError sh) log (savedBatches sh) (searched sh)
        | _ :: _ =>
            mkShown (Some (currentLeadsState st)) (shownError sh) log
                    (savedBatches sh ++ [batchToSave]) (searched sh)
        end in
      let st := mkMining (currentLeadsState st) (totalNew st) (totalSkipped st)
                         (totalMobile st) (totalLandline st) (allSources st)
                         (processedBairros st ++ [barrio]) (tick st) in
      (st, sh, Next)
  | Thrown msg =>
      let say m := mkShown (shownLeads sh) (Some m) (shownLog sh)
                           (savedBatches sh) (searched sh) in
      if JsString.includes "429" msg then (st, say quotaMessage, Break)
      else if JsString.includes "API_KEY_MISSING" msg then (st, say keyMessage, Break)
      else (st, say unexpectedMessage, Next)
  end.

(** The [for] loop over the selected neighbourhoods, from index [i]. *)
Fixpoint mineLoop (w : World) (targetCampaignId : string) (i : nat)
    (bairros : list string) (acc : Mining * Shown) : Mining * Shown :=
  match bairros with
  | [] => acc
  | barrio :: rest =>
      match mineNeighborhood w targetCampaignId i barrio acc with
      | (st, sh, Break) => (st, sh)
      | (st, sh, Next) => mineLoop w targetCampaignId (S i) rest (st, sh)
      end
  end.

(** Target-campaign resolution: the campaign list after [setCampaigns], the
    campaign saved to the remote store, the target id, the clock reads made. *)
Definition resolveTarget (w : World) (app : App.t)
    : list Campaign.t * Campaign.t * string * nat :=
  match list_find (fun c => normalize (Campaign.niche c) = normalize (App.niche app))
                  (App.campaigns app) with
  | None =>
      let newCampaign :=
        Campaign.mk (dateNow w 0) (JsString.toUpperCase engine (App.niche app))
                    (App.city app) (toISOString w 0) (toISOString w 1) in
      (newCampaign :: App.campaigns app, newCampaign, Campaign.id newCampaign, 2)
  | Some (_, existingCampaign) =>
      let updatedCampaign :=
        Campaign.mk (Campaign.id existingCampaign) (Campaign.niche existingCampaign)
                    (Campaign.city existingCampaign) (Campaign.createdAt existingCampaign)
                    (toISOString w 0) in
      ((fun c => if decide (Campaign.id c = Campaign.id existingCampaign)
                 then updatedCampaign else c) <$> App.campaigns app,
       updatedCampaign, Campaign.id existingCampaign, 1)
  end.

(** The end of a run: what was shown, the run's variables, the campaign list,
    and whether the timer that switches to the leads view was set. *)
Record Run := mkRun {
  runCampaigns : list Campaign.t;
  runMining : Mining;
  runShown : Shown;
  navigates : bool
}.

(** [handleStartMining]; [None] is the early [return].  The test in the
    [finally] block reads [errorMessage], the constant of the render that
    created the handler, which [setErrorMessage] does not change. *)
Definition handleStartMining (w : World) (app : App.t) : option Run :=
  if negb (JsString.truthy (App.niche app)) || negb (JsString.truthy (App.city app))
     || bool_decide (App.selectedNeighborhoods app = [])
  then None
  else
    let '(campaigns', _, targetCampaignId, reads) := resolveTarget w app in
    let st0 := mkMining (App.leads app) 0 0 0 0 [] [] reads in
    let sh0 := mkShown None None (0, 0, 0, 0) [] [] in
    let (st, sh) := mineLoop w targetCampaignId 0 (App.selectedNeighborhoods app) (st0, sh0) in
    let noError :=
      match App.errorMessage app with
      | None => true
      | Some m => negb (JsString.truthy m)
      end in
    Some (mkRun campaigns' st sh (noError && bool_decide (0 < totalNew st))).

(** ** Duplicate cleanup ([handleCleanDuplicates] of App.tsx) *)

(** The test of [leads.filter(l => ...)] for an active campaign [a]:
    [niche && campaigns.filter(c => c.niche === niche).map(c => c.id).includes(l.campaignId)] *)
Definition inFolder (a : string) (campaigns : list Campaign.t) (l : BusinessInfo.t) : bool :=
  match list_find (fun c => Campaign.id c = a) campaigns with
  | Some (_, c) =>
      let niche := Campaign.niche c in
      JsString.truthy niche &&
      match BusinessInfo.campaignId l with
      | Some (Str cid) =>
          bool_decide (cid ∈ Campaign.id <$>
            List.filter (fun c' => bool_decide (Campaign.niche c' = niche)) campaigns)
      | _ => false
      end
  | None => false
  end.

(** The leads in scope: those of the active folder, or all of them. *)
Definition targetLeads (activeCampaignId : option string)
    (campaigns : list Campaign.t) (leads : list BusinessInfo.t) : list BusinessInfo.t :=
  match activeCampaignId with
  | Some a => if JsString.truthy a then List.filter (inFolder a campaigns) leads else leads
  | None => leads
  end.

(** The comparator handed to [sort]: [time b - time a]; [None] is [NaN]. *)
Definition byLastSeenDesc (a b : BusinessInfo.t) : option Z :=
  tb ← JsDate.getTime engine (BusinessInfo.lastSeenAt b);
  ta ← JsDate.getTime engine (BusinessInfo.lastSeenAt a);
  Some (tb - ta)%Z.

(** [Array.prototype.sort] is stable: [a] stays before [b] unless the
    comparator is positive ([NaN] counts as zero). *)
Definition swaps (cmp : BusinessInfo.t -> BusinessInfo.t -> option Z)
    (a b : BusinessInfo.t) : bool :=
  match cmp a b with
  | Some v => (0 <? v)%Z
  | None => false
  end.

Fixpoint sortInsert (cmp : BusinessInfo.t -> BusinessInfo.t -> option Z)
    (x : BusinessInfo.t) (l : list BusinessInfo.t) : list BusinessInfo.t :=
  match l with
  | [] => [x]
  | y :: l' => if swaps cmp x y then y :: sortInsert cmp x l' else x :: l
  end.

Definition sort (cmp : BusinessInfo.t -> BusinessInfo.t -> option Z)
    (l : list BusinessInfo.t) : list BusinessInfo.t :=
  foldr (sortInsert cmp) [] l.

Record Scan := mkScan {
  phoneMap : gmap string BusinessInfo.t;
  dupesFound : list BusinessInfo.t;
  keptLeads : list BusinessInfo.t
}.

(** The body of [sortedLeads.forEach(l => ...)]. *)
Definition scanStep (st : Scan) (l : BusinessInfo.t) : Scan :=
  let phone := normalize (BusinessInfo.phone l) in
  if JsString.truthy phone && bool_decide (is_Some (phoneMap st !! phone))
  then mkScan (phoneMap st) (dupesFound st ++ [l]) (keptLeads st)
  else mkScan (if JsString.truthy phone then <[phone := l]> (phoneMap st) else phoneMap st)
              (dupesFound st) (keptLeads st ++ [l]).

Definition scan (sortedLeads : list BusinessInfo.t) : Scan :=
  fold_left scanStep sortedLeads (mkScan ∅ [] []).

(** The spec's [findPhoneDuplicates]: the leads that the cleanup flags. *)
Definition findPhoneDuplicates (scope : list BusinessInfo.t) : list BusinessInfo.t :=
  dupesFound (scan (sort byLastSeenDesc scope)).

(** After the user confirms: the leads that stay in memory. *)
Definition handleCleanDuplicates (activeCampaignId : option string)
    (campaigns : list Campaign.t) (leads : list BusinessInfo.t) : list BusinessInfo.t :=
  let dupes := findPhoneDuplicates (targetLeads activeCampaignId campaigns leads) in
  match dupes with
  | [] => leads
  | _ :: _ =>
      let dupeIds := leadKey <$> dupes in
      List.filter (fun l => negb (bool_decide (leadKey l ∈ dupeIds))) leads
  end.

(** ** Lead updates from the detail view *)

(** [prev.map(l => l.id === selected.id ? updatedLead : l)] *)
Definition replaceById (selectedId : string) (updatedLead : BusinessInfo.t)
    (prev : list BusinessInfo.t) : list BusinessInfo.t :=
  (fun l => if decide (BusinessInfo.id l = selectedId) then updatedLead else l) <$> prev.

(** A status button: the selected lead, the lead list, the leads saved. *)
Definition clickStatus (selectedLead : BusinessInfo.t) (s : Status)
    (prev : list BusinessInfo.t)
    : BusinessInfo.t * list BusinessInfo.t * list BusinessInfo.t :=
  let updatedLead := BusinessInfo.with_status s selectedLead in
  (updatedLead, replaceById (BusinessInfo.id selectedLead) updatedLead prev, [updatedLead]).

(** [handleGeneratePitch] once the pitch has arrived. *)
Definition handleGeneratePitch (lead : BusinessInfo.t) (pitch : string)
    (prev : list BusinessInfo.t)
    : BusinessInfo.t * list BusinessInfo.t * list BusinessInfo.t :=
  let updatedLead := BusinessInfo.with_notes pitch lead in
  (updatedLead, replaceById (BusinessInfo.id lead) updatedLead prev, [updatedLead]).

(** The WhatsApp link: the lead list, and the lead saved
    ([up.find(x => x.id === selectedLead.id)], [None] when there is none). *)
Definition clickWhatsApp (selectedLead : BusinessInfo.t) (leads : list BusinessInfo.t)
    : list BusinessInfo.t * option BusinessInfo.t :=
  let up := (fun l => if decide (BusinessInfo.id l = BusinessInfo.id selectedLead)
                      then BusinessInfo.with_status contacted l else l) <$> leads in
  (up, snd <$> list_find (fun x => BusinessInfo.id x = BusinessInfo.id selectedLead) up).

(** ** Predicates used in the statements *)

(** Every entry of a [Map] is filed under the key computed from its value. *)
Definition filed {V : Type} (f : V -> string) (m : JsMap.t V) : Prop :=
  Forall (fun e => e.1 = f e.2) m.

(** The key of a campaign's folder. *)
Definition campaignKey (c : Campaign.t) : string := deriveCampaignKey (Campaign.niche c).

(** ** Sample records for the concrete scenarios *)

(** An engine for the scenarios.  Their text is ASCII and their timestamps
    are ISO, so that its case mappings are never asked; its [Date.parse] is
    asked about one text, which is no date; its built-in functions print as
    V8 prints them. *)
Definition sampleEngine : Engine.t :=
  Engine.mk (fun s => s) (fun s => s) (fun _ => None)
            (fun name =>
               "function " +:+ (if decide (name = "constructor") then "Object" else name)
               +:+ "() { [native code] }").

Definition sampleCampaign (id niche : string) : Campaign.t :=
  Campaign.mk id niche "SAO PAULO" "2024-01-01T00:00:00.000Z" "2024-01-01T00:00:00.000Z".

Definition sampleLead (id phone : string) (status : Status)
    (lastSeenAt campaignId : option string) : BusinessInfo.t :=
  BusinessInfo.mk id "Bella" phone ("https://wa.me/55" +:+ phone) None None None None
                  status "Centro" mobile None lastSeenAt (Str <$> campaignId).




(** The normalized phone of a lead, as the scan and the mining fold use it. *)
Definition phoneKey (l : BusinessInfo.t) : string := normalize (BusinessInfo.phone l).

(** A provider that answers the first neighbourhood with one business and
    rejects every later call with a quota error. *)
Definition sampleWorld : World :=
  mkWorld (fun i _ =>
             match i with
             | O => Resolved (mkResult "NOME: Bella"
                      [sampleLead "bella_centro_99998888" "11999998888" new None None] [])
             | S _ => Thrown "429 RESOURCE_EXHAUSTED"
             end)
          (fun _ => "2024-01-02T10:00:00.000Z")
          (fun _ => "1704189600000").

(** A provider that always answers with one business. *)
Definition steadyWorld : World :=
  mkWorld (fun _ _ => Resolved (mkResult "NOME: Bella"
                        [sampleLead "bella_centro_99998888" "11999998888" new None None] []))
          (fun _ => "2024-01-02T10:00:00.000Z")
          (fun _ => "1704189600000").

(** The form filled in, two neighbourhoods selected; [shown] is the error
    message on display when the form is submitted. *)
Definition sampleApp (shown : option string) : App.t :=
  App.mk [] [] shown "pizzaria" "Sao Paulo" ["Centro"; "Moema"].

(** ** The lead list of the leads view ([filteredLeads] of App.tsx) *)

(** The string a status is in JavaScript. *)
Definition statusName (s : Status) : string :=
  match s with
  | new => "new"
  | contacted => "contacted"
  | interested => "interested"
  | closed => "closed"
  | rejected => "rejected"
  | outdated => "outdated"
  end.

(** [relatedCampaignIds.includes(l.campaignId)] *)
Definition inCampaigns (relatedCampaignIds : list string) (l : BusinessInfo.t) : bool :=
  match BusinessInfo.campaignId l with
  | Some (Str cid) => bool_decide (cid ∈ relatedCampaignIds)
  | _ => false
  end.

Definition filteredLeads (leads : list BusinessInfo.t) (campaigns : list Campaign.t)
    (activeCampaignId : option string) (statusFilter leadSearchQuery : string)
    : list BusinessInfo.t :=
  let result := leads in
  let result :=
    match activeCampaignId with
    | Some a =>
        if JsString.truthy a then
          match list_find (fun c => Campaign.id c = a) campaigns with
          | Some (_, c) =>
              let targetNiche := Campaign.niche c in
              if JsString.truthy targetNiche then
                let relatedCampaignIds :=
                  Campaign.id <$>
                    List.filter (fun c' => bool_decide (Campaign.niche c' = targetNiche))
                                campaigns in
                List.filter (inCampaigns relatedCampaignIds) result
              else result
          | None => result
          end
        else result
    | None => result
    end in
  let result :=
    if bool_decide (statusFilter = "all") then result
    else List.filter (fun l => bool_decide (statusName (BusinessInfo.status l) = statusFilter))
                     result in
  if JsString.truthy leadSearchQuery then
    let q := normalize leadSearchQuery in
    List.filter (fun l => JsString.includes q (normalize (BusinessInfo.name l))) result
  else result.

(** ** Folder deletion ([handleDeleteCampaign] of App.tsx) *)

(** The state the handler writes: campaigns, leads, the active campaign, and
    the ids it asks the remote store to delete.  [confirmed] is the answer to
    [window.confirm]. *)
Record Deleted := mkDeleted {
  keptCampaigns : list Campaign.t;
  keptFolderLeads : list BusinessInfo.t;
  activeAfter : option string;
  idsToDelete : list string
}.

Definition handleDeleteCampaign (campaignId : string) (confirmed : bool)
    (campaigns : list Campaign.t) (leads : list BusinessInfo.t)
    (activeCampaignId : option string) : Deleted :=
  match list_find (fun c => Campaign.id c = campaignId) campaigns with
  | None => mkDeleted campaigns leads activeCampaignId []
  | Some (_, campaign) =>
      if confirmed then
        let relatedCampaigns :=
          List.filter (fun c => bool_decide (normalize (Campaign.niche c)
                                             = normalize (Campaign.niche campaign)))
                      campaigns in
        let ids := Campaign.id <$> relatedCampaigns in
        mkDeleted
          (List.filter (fun c => negb (bool_decide (Campaign.id c ∈ ids))) campaigns)
          (List.filter (fun l => negb (inCampaigns ids l)) leads)
          (match activeCampaignId with
           | Some a => if JsString.truthy a && bool_decide (a ∈ ids) then None else Some a
           | None => None
           end)
          ids
      else mkDeleted campaigns leads activeCampaignId []
  end.

(** ** Retrying a provider call ([withRetry] of services/gemini.ts) *)

(** One call of [fn]. *)
Inductive Attempt (A : Type) :=
| Returns (a : A)
| Throws (err : JsError.t).
#[global] Arguments Returns {A} a.
#[global] Arguments Throws {A} err.

(** How the promise of [withRetry] settles; [Rejects None] is
    [throw lastError] with nothing caught yet. *)
Inductive Settled (A : Type) :=
| Fulfils (a : A)
| Rejects (err : option JsError.t).
#[global] Arguments Fulfils {A} a.
#[global] Arguments Rejects {A} err.

(** [err.message?.includes('429') || err.status === 429] *)
Definition isQuota (err : JsError.t) : bool :=
  match JsError.message err with
  | Some m => JsString.includes "429" m
  | None => false
  end
  || bool_decide (JsError.status err = Some 429%Z).

(** The loop of [withRetry] from turn [i], with [remaining] turns left;
    [fn i] is what the [i]-th call of [fn] does.  The result comes with the
    delays waited, in milliseconds, in order. *)
Fixpoint retryFrom {A : Type} (fn : nat -> Attempt A) (remaining i : nat)
    (lastError : option JsError.t) (delays : list Z) : Settled A * list Z :=
  match remaining with
  | O => (Rejects lastError, delays)
  | S remaining' =>
      match fn i with
      | Returns a => (Fulfils a, delays)
      | Throws err =>
          if isQuota err
          then retryFrom fn remaining' (S i) (Some err)
                         (delays ++ [(5000 * (Z.of_nat i + 1))%Z])
          else (Rejects (Some err), delays)
      end
  end.

Definition withRetry {A : Type} (fn : nat -> Attempt A) (maxRetries : nat)
    : Settled A * list Z :=
  retryFrom fn maxRetries 0 None [].

(** ** Building a business record ([searchBusinesses] of services/gemini.ts) *)

(** [rawPhoneLine.replace(/\D/g, '').match(/(?:55)?(\d{10,11})/)], first
    group, or the empty string.  On a run of [n] digits the match starts at
    the first digit: a leading 55 is skipped when at least ten digits follow
    it, and the group takes eleven digits when there are that many, ten
    otherwise; with fewer than ten digits nothing matches. *)
Definition extractPhone (rawPhoneLine : string) : string :=
  let d := JsString.keep JsString.is_digit rawPhoneLine in
  let n := String.length d in
  if JsString.startsWith "55" d && (12 <=? n)%nat
  then String.substring 2 (Nat.min 11 (n - 2)) d
  else if (10 <=? n)%nat then String.substring 0 (Nat.min 11 n) d
  else "".

(** [x && x !== 'N/A' ? x : undefined] *)
Definition presentField (x : option string) : option string :=
  match x with
  | Some v => if JsString.truthy v && negb (bool_decide (v = "N/A")) then Some v else None
  | None => None
  end.

(** [rawPhone.length === 11 && (rawPhone[2] === '9' || rawPhone[2] === '8')] *)
Definition isMobile (rawPhone : string) : bool :=
  Nat.eqb (String.length rawPhone) 11
  && (bool_decide (String.get 2 rawPhone = Some "9"%char)
      || bool_decide (String.get 2 rawPhone = Some "8"%char)).

(** The record pushed for one block of the answer, from the fields matched in
    it: [name] (absent when [NOME:] did not match), the text after
    [TELEFONE:] (empty when absent), and the optional fields. *)
Definition businessOfBlock (name : option string) (rawPhoneLine : string)
    (instagram website : option string) (neighborhood : string)
    : option BusinessInfo.t :=
  match name with
  | Some nm =>
      if JsString.truthy nm then
        let rawPhone := extractPhone rawPhoneLine in
        Some (BusinessInfo.mk
                (createNormalizedId nm rawPhone neighborhood)
                nm rawPhone
                ("https://wa.me/" +:+
                   (if JsString.startsWith "55" rawPhone then rawPhone
                    else "55" +:+ rawPhone))
                (presentField instagram) None None (presentField website)
                new neighborhood
                (if isMobile rawPhone then mobile else landline)
                None None None)
      else None
  | None => None
  end.

(** ** The vCard export ([performExport] of App.tsx, format [vcf]) *)

(** [cleanPhone.startsWith('55') ? '+' + cleanPhone : '+55' + cleanPhone] *)
Definition vcfPhone (phone : string) : string :=
  let cleanPhone := JsString.keep JsString.is_digit phone in
  if JsString.startsWith "55" cleanPhone then "+" +:+ cleanPhone
  else "+55" +:+ cleanPhone.

(** ** More predicates used in the statements *)

(** No two leads have the same non-empty normalized phone. *)
Definition phonesDistinct (l : list BusinessInfo.t) : Prop :=
  NoDup (filter (fun p => p ≠ "") (phoneKey <$> l)).

(** No two leads have the same [id] in the same campaign. *)
Definition pairsDistinct (l : list BusinessInfo.t) : Prop :=
  NoDup ((fun x => (BusinessInfo.id x, BusinessInfo.campaignId x)) <$> l).

(** The number of ["_"] in a string. *)
Fixpoint underscores (s : string) : nat :=
  match s with
  | EmptyString => 0
  | String c s' => (if bool_decide (c = "_"%char) then 1 else 0) + underscores s'
  end.

(** Every character of a string satisfies [p]. *)
Fixpoint allChars (p : ascii -> bool) (s : string) : bool :=
  match s with
  | EmptyString => true
  | String c s' => p c && allChars p s'
  end.

(** The campaign list and the target id that [resolveTarget] gives. *)
Definition campaignsAfter (w : World) (app : App.t) : list Campaign.t :=
  (resolveTarget w app).1.1.1.

Definition targetOf (w : World) (app : App.t) : string :=
  (resolveTarget w app).1.2.

(** The form submitted again, with the campaign list of the run before. *)
Definition resubmitted (campaigns : list Campaign.t) (niche : string) (app : App.t) : App.t :=
  App.mk campaigns (App.leads app) (App.errorMessage app) niche (App.city app)
         (App.selectedNeighborhoods app).

(** How the variables of a run at two moments are related: the leads
    [accepted] in between were appended, counted and saved, each stamped with
    the target campaign and a timestamp. *)
Definition accounted (targetCampaignId : string) (accepted : list BusinessInfo.t)
    (before after : Mining * Shown) : Prop :=
  currentLeadsState after.1 = currentLeadsState before.1 ++ accepted
  ∧ List.concat (savedBatches after.2) = List.concat (savedBatches before.2) ++ accepted
  ∧ totalNew after.1 = totalNew before.1 + List.length accepted
  ∧ totalMobile after.1 + totalLandline after.1
    = totalMobile before.1 + totalLandline before.1 + List.length accepted
  ∧ Forall (fun l => BusinessInfo.campaignId l = Some (Str targetCampaignId)
                     ∧ is_Some (BusinessInfo.lastSeenAt l)) accepted
  ∧ shownLeads after.2
    = match accepted with
      | [] => shownLeads before.2
      | _ :: _ => Some (currentLeadsState after.1)
      end.

(** How the promise settles when the call that ends the loop did [a]. *)
Definition settle {A : Type} (a : Attempt A) : Settled A :=
  match a with
  | Returns v => Fulfils v
  | Throws err => Rejects (Some err)
  end.

(** The delays after [k] quota errors in a row: 5 s, 10 s, ... *)
Definition retryDelays (k : nat) : list Z :=
  (fun j => (5000 * (Z.of_nat j + 1))%Z) <$> seq 0 k.

(** * Properties *)

(** ** Facts about [JsMap] *)

Section JsMapFacts.
Context {V : Type}.
Implicit Types (m : JsMap.t V) (k : string) (v : V).

Lemma JsMap_get_None k m : JsMap.get k m = None ↔ k ∉ JsMap.keys m.
Proof.
  induction m as [|[k' v'] m IH]; simpl.
  - split; [intros _; apply not_elem_of_nil | done].
  - rewrite not_elem_of_cons. case_decide as Hk.
    + split; [done | intros [Hne _]; by destruct Hne].
    + rewrite IH. split; [by split | by intros [_ ?]].
Qed.

Lemma JsMap_get_Some_elem k v m : JsMap.get k m = Some v → (k, v) ∈ m.
Proof.
  induction m as [|[k' v'] m IH]; simpl; [done|].
  case_decide; simplify_eq.
  - intros [= ->]. left.
  - intros. right. auto.
Qed.

Lemma JsMap_elem_get k v m : NoDup (JsMap.keys m) → (k, v) ∈ m → JsMap.get k m = Some v.
Proof.
  induction m as [|[k' v'] m IH]; simpl.
  - intros _ H. by apply elem_of_nil in H.
  - rewrite NoDup_cons. intros [Hk Hnd] [H|H]%elem_of_cons.
    + simplify_eq. by rewrite decide_True.
    + rewrite decide_False; [auto|].
      intros ->. apply Hk. unfold JsMap.keys.
      apply list_elem_of_fmap. by exists (k, v).
Qed.

(** [set] on a new key appends the entry. *)
Lemma JsMap_set_fresh k v m : JsMap.get k m = None → JsMap.set k v m = m ++ [(k, v)].
Proof.
  induction m as [|[k' v'] m IH]; simpl; [done|].
  case_decide; [done|]. intros Hg. by rewrite IH.
Qed.

(** [set] never changes the order of the keys. *)
Lemma JsMap_keys_set k v m :
  JsMap.keys (JsMap.set k v m)
  = if decide (k ∈ JsMap.keys m) then JsMap.keys m else JsMap.keys m ++ [k].
Proof.
  induction m as [|[k' v'] m IH]; simpl.
  - done.
  - destruct (decide (k' = k)) as [->|Hne]; simpl.
    + rewrite decide_True; [done | apply elem_of_cons; by left].
    + unfold JsMap.keys in *. rewrite IH.
      destruct (decide (k ∈ m.*1)) as [Hin|Hin].
      * rewrite decide_True; [done | apply elem_of_cons; by right].
      * rewrite decide_False; [done|].
        rewrite not_elem_of_cons. split; [congruence | done].
Qed.

Lemma JsMap_NoDup_set k v m : NoDup (JsMap.keys m) → NoDup (JsMap.keys (JsMap.set k v m)).
Proof.
  intros Hnd. rewrite JsMap_keys_set. case_decide as Hin; [done|].
  apply NoDup_app. split_and!; [done | | apply NoDup_singleton].
  intros x Hx ->%list_elem_of_singleton. done.
Qed.

Lemma JsMap_NoDup_set_all entries m :
  NoDup (JsMap.keys m) → NoDup (JsMap.keys (JsMap.set_all entries m)).
Proof.
  revert m. unfold JsMap.set_all.
  induction entries as [|e entries IH]; simpl; [done|].
  intros m Hnd. by apply IH, JsMap_NoDup_set.
Qed.

Lemma filed_set f k v m : k = f v → filed f m → filed f (JsMap.set k v m).
Proof.
  intros Hk. unfold filed. induction m as [|[k' v'] m IH]; simpl.
  - intros _. by constructor.
  - intros [H1 H2]%Forall_cons. case_decide; constructor; auto.
Qed.

Lemma filed_set_all f (l : list V) m :
  filed f m → filed f (JsMap.set_all ((fun x => (f x, x)) <$> l) m).
Proof.
  revert m. unfold JsMap.set_all.
  induction l as [|x l IH]; simpl; [done|].
  intros m Hm. apply IH. by apply filed_set.
Qed.

Lemma filed_keys f m : filed f m → JsMap.keys m = f <$> JsMap.values m.
Proof.
  unfold filed, JsMap.keys, JsMap.values.
  induction 1 as [|[k v] m Hk _ IH]; simpl in *; [done|]. by f_equal.
Qed.

(** The values of a map built by [set] come from the entries set. *)
Lemma JsMap_values_set_all entries m x :
  x ∈ JsMap.values (JsMap.set_all entries m) → x ∈ JsMap.values m ∨ x ∈ entries.*2.
Proof.
  revert m. unfold JsMap.set_all, JsMap.values.
  induction entries as [|[k v] entries IH]; simpl; [by left|].
  intros m [Hx|Hx]%IH; [|by right; right].
  clear IH. induction m as [|[k' v'] m IHm]; simpl in *.
  - apply list_elem_of_singleton in Hx as ->. right; left.
  - case_decide; simpl in *; apply elem_of_cons in Hx as [->|Hx].
    + right; left.
    + left; by right.
    + left; left.
    + destruct (IHm Hx) as [?|?]; [left; by right | by right].
Qed.
End JsMapFacts.

(** ** The duplicate-campaign pass *)

Lemma JsMap_get_app {V} k (m1 m2 : JsMap.t V) :
  JsMap.get k (m1 ++ m2)
  = match JsMap.get k m1 with Some v => Some v | None => JsMap.get k m2 end.
Proof.
  induction m1 as [|[k' v'] m1 IH]; simpl; [done|].
  by destruct (decide (k' = k)).
Qed.

Lemma collapseStep_kept st c original :
  JsMap.get (campaignKey c) (nicheMap st) = Some original →
  collapseStep st c
  = mkCollapse (nicheMap st) (campaignsToRemove st ++ [Campaign.id c])
               (JsObject.set (Campaign.id c) (Campaign.id original) (leadRemapping st)).
Proof.
  unfold collapseStep, JsMap.has, campaignKey, deriveCampaignKey. by intros ->.
Qed.

Lemma collapseStep_new st c :
  JsMap.get (campaignKey c) (nicheMap st) = None →
  collapseStep st c
  = mkCollapse (nicheMap st ++ [(campaignKey c, c)]) (campaignsToRemove st)
               (leadRemapping st).
Proof.
  unfold collapseStep, JsMap.has, campaignKey, deriveCampaignKey.
  intros Hg. rewrite Hg. by rewrite JsMap_set_fresh.
Qed.

(** The folder map after the pass: under each key, the first campaign of
    the list with that key. *)
Lemma collapse_get l st k :
  JsMap.get k (nicheMap (fold_left collapseStep l st))
  = match JsMap.get k (nicheMap st) with
    | Some A => Some A
    | None => snd <$> list_find (fun c => campaignKey c = k) l
    end.
Proof.
  revert st. induction l as [|c l IH]; intros st; simpl.
  { by destruct (JsMap.get k (nicheMap st)). }
  rewrite IH. destruct (JsMap.get (campaignKey c) (nicheMap st)) as [o|] eqn:Hc.
  - rewrite (collapseStep_kept _ _ _ Hc); simpl.
    destruct (JsMap.get k (nicheMap st)) eqn:Hk; [done|].
    rewrite decide_False; [|congruence].
    by destruct (list_find _ l) as [[??]|].
  - rewrite (collapseStep_new _ _ Hc); simpl. rewrite JsMap_get_app; simpl.
    destruct (JsMap.get k (nicheMap st)) eqn:Hk; [done|].
    destruct (decide (campaignKey c = k)) as [Heq|Hne]; [done|].
    by destruct (list_find _ l) as [[??]|].
Qed.

Lemma collapse_filed l st :
  filed campaignKey (nicheMap st) →
  filed campaignKey (nicheMap (fold_left collapseStep l st)).
Proof.
  revert st. induction l as [|c l IH]; intros st Hst; simpl; [done|].
  apply IH. destruct (JsMap.get (campaignKey c) (nicheMap st)) as [o|] eqn:Hc.
  - by rewrite (collapseStep_kept _ _ _ Hc).
  - rewrite (collapseStep_new _ _ Hc); simpl.
    rewrite <- (JsMap_set_fresh _ _ _ Hc). by apply filed_set.
Qed.

Lemma collapse_NoDup l st :
  NoDup (JsMap.keys (nicheMap st)) →
  NoDup (JsMap.keys (nicheMap (fold_left collapseStep l st))).
Proof.
  revert st. induction l as [|c l IH]; intros st Hst; simpl; [done|].
  apply IH. destruct (JsMap.get (campaignKey c) (nicheMap st)) as [o|] eqn:Hc.
  - by rewrite (collapseStep_kept _ _ _ Hc).
  - rewrite (collapseStep_new _ _ Hc); simpl.
    rewrite <- (JsMap_set_fresh _ _ _ Hc). by apply JsMap_NoDup_set.
Qed.

Lemma collapse_removed_grows l st :
  ∃ more, campaignsToRemove (fold_left collapseStep l st) = campaignsToRemove st ++ more.
Proof.
  revert st. induction l as [|c l IH]; intros st; simpl.
  { exists []. by rewrite app_nil_r. }
  destruct (IH (collapseStep st c)) as [more ->].
  destruct (JsMap.get (campaignKey c) (nicheMap st)) as [o|] eqn:Hc.
  - rewrite (collapseStep_kept _ _ _ Hc); simpl. rewrite <- app_assoc. by eexists.
  - rewrite (collapseStep_new _ _ Hc); simpl. by eexists.
Qed.

(** When nothing is marked for removal, the folder map lists the campaigns
    as they came. *)
Lemma collapse_nothing_removed l st :
  campaignsToRemove (fold_left collapseStep l st) = [] →
  JsMap.values (nicheMap (fold_left collapseStep l st)) = JsMap.values (nicheMap st) ++ l.
Proof.
  revert st. induction l as [|c l IH]; intros st Hnil; simpl in *.
  { by rewrite app_nil_r. }
  rewrite (IH _ Hnil).
  destruct (collapse_removed_grows l (collapseStep st c)) as [more Hmore].
  rewrite Hnil in Hmore.
  destruct (JsMap.get (campaignKey c) (nicheMap st)) as [o|] eqn:Hc.
  - rewrite (collapseStep_kept _ _ _ Hc) in Hmore; simpl in Hmore.
    by destruct (campaignsToRemove st).
  - rewrite (collapseStep_new _ _ Hc); simpl.
    unfold JsMap.values. rewrite fmap_app; simpl. by rewrite <- app_assoc.
Qed.

Lemma merged_campaigns lc ll cData lData :
  campaigns (mergeReplicas lc ll cData lData)
  = JsMap.values (nicheMap (collapse (unionCampaigns lc cData))).
Proof.
  unfold mergeReplicas.
  destruct (campaignsToRemove (collapse (unionCampaigns lc cData))) eqn:Hr; simpl; [|done].
  symmetry. by apply (collapse_nothing_removed _ collapse0).
Qed.

Lemma filed_values {V} (f : V → string) (m : JsMap.t V) x :
  filed f m → x ∈ JsMap.values m → (f x, x) ∈ m.
Proof.
  unfold filed, JsMap.values. rewrite Forall_forall.
  intros Hf ([k v] & -> & Hin)%list_elem_of_fmap; simpl.
  pose proof (Hf _ Hin) as Hk; simpl in Hk. by rewrite <- Hk.
Qed.

Lemma filed_values_NoDup {V} (f : V → string) (m : JsMap.t V) :
  filed f m → NoDup (JsMap.keys m) → NoDup (f <$> JsMap.values m).
Proof. intros Hf. by rewrite (filed_keys _ _ Hf). Qed.

(** C1.  After the merge, two surviving campaigns with the same normalized
    niche are one and the same entry of the campaign list; each survivor is
    the first campaign with its normalized niche in the order in which the
    merged input is iterated, and every campaign of that input has a
    survivor with its normalized niche. *)
Theorem campaign_collapse_is_quotient
    (localCampaigns : list Campaign.t) (localLeads : list BusinessInfo.t)
    (cData : option (list Campaign.t)) (lData : option (list BusinessInfo.t)) :
  let input := unionCampaigns localCampaigns cData in
  let surviving := campaigns (mergeReplicas localCampaigns localLeads cData lData) in
  (∀ i j A B,
     surviving !! i = Some A → surviving !! j = Some B →
     deriveCampaignKey (Campaign.niche A) = deriveCampaignKey (Campaign.niche B) →
     i = j ∧ A = B)
  ∧ (∀ A, A ∈ surviving →
       ∃ i, list_find (fun c => deriveCampaignKey (Campaign.niche c)
                                = deriveCampaignKey (Campaign.niche A)) input
            = Some (i, A))
  ∧ (∀ c, c ∈ input →
       ∃ A, A ∈ surviving
            ∧ deriveCampaignKey (Campaign.niche A) = deriveCampaignKey (Campaign.niche c)).
Proof.
  intros input surviving. subst surviving. rewrite merged_campaigns. fold input.
  set (m := nicheMap (collapse input)).
  assert (Hf : filed campaignKey m) by (apply collapse_filed; constructor).
  assert (Hnd : NoDup (JsMap.keys m)) by (apply collapse_NoDup; constructor).
  assert (Hget : ∀ k, JsMap.get k m
                      = snd <$> list_find (fun c => campaignKey c = k) input).
  { intros k. unfold m, collapse. by rewrite collapse_get. }
  split_and!.
  - intros i j A B Hi Hj Hkey.
    assert (i = j) as ->.
    { apply (NoDup_lookup _ i j (campaignKey A) (filed_values_NoDup _ _ Hf Hnd)).
      - by rewrite list_lookup_fmap, Hi.
      - rewrite list_lookup_fmap, Hj. simpl. unfold campaignKey. by rewrite Hkey. }
    split; [done | congruence].
  - intros A HA.
    pose proof (JsMap_elem_get _ _ _ Hnd (filed_values _ _ _ Hf HA)) as Hg.
    rewrite Hget in Hg. unfold campaignKey in Hg.
    destruct (list_find _ input) as [[i A']|]; simplify_eq/=. by exists i.
  - intros c Hc.
    destruct (list_find_elem_of (fun x => campaignKey x = campaignKey c) input c Hc eq_refl)
      as [[i A] Hfind].
    exists A. split.
    + assert (Hin : (campaignKey c, A) ∈ m).
      { apply JsMap_get_Some_elem. by rewrite Hget, Hfind. }
      unfold JsMap.values. apply list_elem_of_fmap. by exists (campaignKey c, A).
    + by apply list_find_Some in Hfind as (_ & ? & _).
Qed.

(** ** Lead deduplication *)

Lemma uniqueLeads_NoDup rawLeads : NoDup (leadKey <$> uniqueLeads rawLeads).
Proof.
  unfold uniqueLeads, JsMap.of_entries. apply filed_values_NoDup.
  - apply filed_set_all. constructor.
  - apply JsMap_NoDup_set_all. constructor.
Qed.

Lemma uniqueLeads_elem rawLeads l : l ∈ uniqueLeads rawLeads → l ∈ rawLeads.
Proof.
  unfold uniqueLeads, JsMap.of_entries.
  intros [H|H]%JsMap_values_set_all.
  - by apply elem_of_nil in H.
  - rewrite <- list_fmap_compose in H. by rewrite list_fmap_id in H.
Qed.

(** The leads of the merge are deduplicated last: after the remap when a
    campaign was marked for removal, as they came otherwise. *)
Lemma merged_leads lc ll cData lData :
  leads (mergeReplicas lc ll cData lData)
  = uniqueLeads
      (match campaignsToRemove (collapse (unionCampaigns lc cData)) with
       | [] => unionLeads ll lData
       | _ :: _ => remapLead (leadRemapping (collapse (unionCampaigns lc cData)))
                     <$> unionLeads ll lData
       end).
Proof.
  unfold mergeReplicas.
  by destruct (campaignsToRemove (collapse (unionCampaigns lc cData))).
Qed.

(** C2.  After the merge no two entries of the lead list have both the same
    [id] and the same [campaignId]. *)
Theorem lead_uniqueness
    (localCampaigns : list Campaign.t) (localLeads : list BusinessInfo.t)
    (cData : option (list Campaign.t)) (lData : option (list BusinessInfo.t)) :
  let merged := leads (mergeReplicas localCampaigns localLeads cData lData) in
  ∀ i j a b,
    merged !! i = Some a → merged !! j = Some b →
    BusinessInfo.id a = BusinessInfo.id b →
    BusinessInfo.campaignId a = BusinessInfo.campaignId b →
    i = j.
Proof.
  intros merged i j a b Hi Hj Hid Hcid. subst merged.
  rewrite merged_leads in Hi, Hj.
  eapply NoDup_lookup; [apply uniqueLeads_NoDup | |].
  - by rewrite list_lookup_fmap, Hi.
  - rewrite list_lookup_fmap, Hj; simpl. unfold leadKey, campaignIdText.
    by rewrite Hid, Hcid.
Qed.

(** ** Remapping of leads *)

Lemma collapse_ids l st :
  (Campaign.id <$> JsMap.values (nicheMap (fold_left collapseStep l st)))
    ++ campaignsToRemove (fold_left collapseStep l st)
  ≡ₚ ((Campaign.id <$> JsMap.values (nicheMap st)) ++ campaignsToRemove st)
       ++ (Campaign.id <$> l).
Proof.
  revert st. induction l as [|c l IH]; intros st; simpl.
  { by rewrite app_nil_r. }
  rewrite IH. destruct (JsMap.get (campaignKey c) (nicheMap st)) as [o|] eqn:Hc.
  - rewrite (collapseStep_kept _ _ _ Hc); simpl.
    rewrite <- !app_assoc. done.
  - rewrite (collapseStep_new _ _ Hc); simpl.
    unfold JsMap.values. rewrite !fmap_app; simpl.
    rewrite <- !app_assoc. do 1 f_equiv. simpl.
    by rewrite Permutation_middle.
Qed.

(** The remap table has an own property exactly under the ids marked for
    removal, [__proto__] apart. *)
Lemma collapse_remap_dom l st :
  (∀ r, is_Some (leadRemapping st !! r) ↔ r ∈ campaignsToRemove st ∧ r ≠ "__proto__") →
  ∀ r, is_Some (leadRemapping (fold_left collapseStep l st) !! r)
       ↔ r ∈ campaignsToRemove (fold_left collapseStep l st) ∧ r ≠ "__proto__".
Proof.
  revert st. induction l as [|c l IH]; intros st Hst; simpl; [done|].
  apply IH. intros r.
  destruct (JsMap.get (campaignKey c) (nicheMap st)) as [o|] eqn:Hc;
    [rewrite (collapseStep_kept _ _ _ Hc) | rewrite (collapseStep_new _ _ Hc)];
    simpl; [|done].
  rewrite elem_of_app, list_elem_of_singleton. unfold JsObject.set.
  destruct (decide (Campaign.id c = "__proto__")) as [Hp|Hp].
  - rewrite Hst. split; [intros [? ?]; by auto|].
    intros [[?|?] ?]; [done | congruence].
  - destruct (decide (Campaign.id c = r)) as [<-|Hne].
    + rewrite lookup_insert_eq. split; [by auto | by eexists].
    + rewrite lookup_insert_ne by done. rewrite Hst.
      split; [intros [? ?]; by auto | intros [[?|?] ?]; [done | congruence]].
Qed.

(** Every value of the remap table is the id of a campaign that stays. *)
Lemma collapse_remap_canonical l st :
  (∀ r canon, leadRemapping st !! r = Some canon →
     canon ∈ Campaign.id <$> JsMap.values (nicheMap st)) →
  ∀ r canon, leadRemapping (fold_left collapseStep l st) !! r = Some canon →
    canon ∈ Campaign.id <$> JsMap.values (nicheMap (fold_left collapseStep l st)).
Proof.
  revert st. induction l as [|c l IH]; intros st Hst; simpl; [done|].
  apply IH. intros r canon.
  destruct (JsMap.get (campaignKey c) (nicheMap st)) as [o|] eqn:Hc.
  - rewrite (collapseStep_kept _ _ _ Hc); simpl. unfold JsObject.set.
    destruct (decide (Campaign.id c = "__proto__")) as [Hp|Hp]; [apply Hst|].
    destruct (decide (Campaign.id c = r)) as [->|Hne].
    + rewrite lookup_insert_eq. intros [= <-].
      apply list_elem_of_fmap. exists o. split; [done|].
      unfold JsMap.values. apply list_elem_of_fmap. exists (campaignKey c, o).
      split; [done | by apply JsMap_get_Some_elem].
    + rewrite lookup_insert_ne by done. apply Hst.
  - rewrite (collapseStep_new _ _ Hc); simpl. intros Hr%Hst.
    unfold JsMap.values in *. rewrite !fmap_app, elem_of_app. by left.
Qed.

Lemma unionCampaigns_NoDup localCampaigns cd :
  NoDup (Campaign.id <$> unionCampaigns localCampaigns (Some cd)).
Proof.
  unfold unionCampaigns. apply filed_values_NoDup.
  - do 2 apply filed_set_all. constructor.
  - do 2 apply JsMap_NoDup_set_all. constructor.
Qed.

Lemma collapse_survivors_ids input canon :
  canon ∈ Campaign.id <$> JsMap.values (nicheMap (collapse input)) →
  canon ∈ Campaign.id <$> input.
Proof.
  intros Hc. pose proof (collapse_ids input collapse0) as Hp; simpl in Hp.
  rewrite <- Hp. apply elem_of_app. by left.
Qed.

Lemma collapse0_remap_dom r :
  is_Some (leadRemapping collapse0 !! r) ↔ r ∈ campaignsToRemove collapse0 ∧ r ≠ "__proto__".
Proof.
  simpl. rewrite lookup_empty. split; [by intros [? ?] | by intros [?%elem_of_nil _]].
Qed.

(** A string in the [campaignId] is the property name looked up. *)
Lemma campaignIdText_Str l r :
  BusinessInfo.campaignId l = Some (Str r) → campaignIdText l = r.
Proof. unfold campaignIdText. by intros ->. Qed.


(** ** Collisions of the concatenated key *)

Lemma uniqueLeads_same_key l1 l2 :
  leadKey l1 = leadKey l2 → uniqueLeads [l1; l2] = [l2].
Proof.
  intros Hk. unfold uniqueLeads, JsMap.of_entries, JsMap.set_all; simpl.
  rewrite Hk. by rewrite decide_True.
Qed.

Lemma unionLeads_same_key l1 l2 :
  leadKey l1 = leadKey l2 → unionLeads [l1] (Some [l2]) = [l2].
Proof.
  intros Hk. unfold unionLeads, JsMap.set_all; simpl.
  rewrite Hk. by rewrite decide_True.
Qed.

(** C9.  The merge files leads under [id + "_" + campaignId]; derived ids
    contain ["_"]; two leads that differ in the pair (id, campaignId) can
    have the same key, and then the merge keeps the later one only. *)
Theorem lead_key_collision :
  ∃ l1 l2 : BusinessInfo.t,
    BusinessInfo.id l1 = createNormalizedId "Bella" "(11) 3333-4444" "Centro"
    ∧ (BusinessInfo.id l1, BusinessInfo.campaignId l1)
      ≠ (BusinessInfo.id l2, BusinessInfo.campaignId l2)
    ∧ leadKey l1 = leadKey l2
    ∧ leads (mergeReplicas [] [l1; l2] None None) = [l2]
    ∧ leads (mergeReplicas [] [l1; l2] (Some []) (Some [])) = [l2]
    ∧ leads (mergeReplicas [] [l1] (Some []) (Some [l2])) = [l2].
Proof.
  exists (sampleLead "bella_centro_33334444" "1133334444" new None (Some "1")),
         (sampleLead "bella_centro" "1133334444" contacted None (Some "33334444_1")).
  split_and!; try (vm_compute; reflexivity). discriminate.
Qed.

(** ** The mining fold *)

(** The existence test, as a proposition. *)
Lemma exists_in_spec currentLeads targetCampaignId biz :
  exists_in currentLeads targetCampaignId biz = true ↔
  ∃ l, l ∈ currentLeads ∧
    ((BusinessInfo.id l = BusinessInfo.id biz
      ∧ BusinessInfo.campaignId l = Some (Str targetCampaignId))
     ∨ (normalize (BusinessInfo.phone biz) ≠ ""
        ∧ normalize (BusinessInfo.phone l) = normalize (BusinessInfo.phone biz))).
Proof.
  unfold exists_in. rewrite existsb_exists. split.
  - intros (l & Hin%list_elem_of_In & Hl). exists l. split; [done|].
    apply orb_true_iff in Hl as [Hl|Hl]; apply andb_true_iff in Hl as [H1 H2].
    + left. split; by apply bool_decide_eq_true in H1, H2.
    + right. apply negb_true_iff, bool_decide_eq_false in H1.
      by apply bool_decide_eq_true in H2.
  - intros (l & Hin & Hl). exists l. split; [by apply list_elem_of_In|].
    apply orb_true_iff. destruct Hl as [[H1 H2]|[H1 H2]]; [left|right];
      apply andb_true_iff.
    + split; by apply bool_decide_eq_true.
    + split; [by apply negb_true_iff, bool_decide_eq_false
             | by apply bool_decide_eq_true].
Qed.

Lemma exists_in_grows currentLeads more targetCampaignId biz :
  exists_in currentLeads targetCampaignId biz = true →
  exists_in (currentLeads ++ more) targetCampaignId biz = true.
Proof.
  rewrite !exists_in_spec. intros (l & Hin & Hl). exists l.
  split; [apply elem_of_app; by left | done].
Qed.

(** After a candidate went through the fold it passes the existence test,
    accepted or not; the lead list only grows. *)
Lemma foldCandidate_known w target st batchToSave biz :
  let st' := (foldCandidate w target (st, batchToSave) biz).1 in
  exists_in (currentLeadsState st') target biz = true
  ∧ ∃ more, currentLeadsState st' = currentLeadsState st ++ more.
Proof.
  unfold foldCandidate.
  destruct (exists_in (currentLeadsState st) target biz) eqn:He; simpl.
  - split; [done|]. exists []. by rewrite app_nil_r.
  - split; [|by eexists]. apply exists_in_spec. eexists. split.
    + apply elem_of_app. right. by apply list_elem_of_singleton.
    + by left.
Qed.

Lemma foldBatch_known w target batch acc :
  let st' := (fold_left (foldCandidate w target) batch acc).1 in
  (∀ biz, biz ∈ batch → exists_in (currentLeadsState st') target biz = true)
  ∧ ∃ more, currentLeadsState st' = currentLeadsState acc.1 ++ more.
Proof.
  revert acc. induction batch as [|b batch IH]; intros [st bs]; simpl.
  { split; [by intros ? ?%elem_of_nil|]. exists []. by rewrite app_nil_r. }
  destruct (IH (foldCandidate w target (st, bs) b)) as [Hall [more Hmore]].
  destruct (foldCandidate_known w target st bs b) as [Hb [more' Hmore']].
  simpl in *. split.
  - intros biz [->|Hin]%elem_of_cons; [|by apply Hall].
    rewrite Hmore. by apply exists_in_grows.
  - exists (more' ++ more). by rewrite Hmore, Hmore', app_assoc.
Qed.

(** A batch whose candidates all pass the existence test is skipped whole. *)
Lemma foldBatch_all_known w target batch st bs :
  (∀ biz, biz ∈ batch → exists_in (currentLeadsState st) target biz = true) →
  fold_left (foldCandidate w target) batch (st, bs)
  = (mkMining (currentLeadsState st) (totalNew st) (totalSkipped st + List.length batch)
              (totalMobile st) (totalLandline st) (allSources st)
              (processedBairros st) (tick st), bs).
Proof.
  revert st. induction batch as [|b batch IH]; intros st Hall.
  { destruct st; simpl. by rewrite Nat.add_0_r. }
  cbn [fold_left].
  assert (Hb : foldCandidate w target (st, bs) b
               = (mkMining (currentLeadsState st) (totalNew st) (S (totalSkipped st))
                    (totalMobile st) (totalLandline st) (allSources st)
                    (processedBairros st) (tick st), bs)).
  { unfold foldCandidate. rewrite Hall; [done | apply elem_of_cons; by left]. }
  rewrite Hb, IH; simpl.
  - do 2 f_equal. lia.
  - intros biz Hin. apply Hall. apply elem_of_cons. by right.
Qed.

(** C4.  Folding a batch, then the same batch again for the same target
    campaign: the second fold accepts nothing and counts every candidate as
    skipped.  A candidate is skipped exactly when a lead with its id in the
    target campaign is present, or its normalized phone is not empty and is
    the normalized phone of a lead present. *)
Theorem mining_fold_idempotent (w w' : World) (targetCampaignId : string)
    (st : Mining) (batch : list BusinessInfo.t) :
  let st1 := (foldBatch w targetCampaignId st batch).1 in
  foldBatch w' targetCampaignId st1 batch
  = (mkMining (currentLeadsState st1) (totalNew st1)
              (totalSkipped st1 + List.length batch)
              (totalMobile st1) (totalLandline st1) (allSources st1)
              (processedBairros st1) (tick st1), [])
  ∧ (∀ (st0 : Mining) (batchToSave : list BusinessInfo.t) (biz : BusinessInfo.t),
       (foldCandidate w' targetCampaignId (st0, batchToSave) biz).1.(totalSkipped)
       = S (totalSkipped st0)
       ↔ ∃ l, l ∈ currentLeadsState st0 ∧
           ((BusinessInfo.id l = BusinessInfo.id biz
             ∧ BusinessInfo.campaignId l = Some (Str targetCampaignId))
            ∨ (normalize (BusinessInfo.phone biz) ≠ ""
               ∧ normalize (BusinessInfo.phone l) = normalize (BusinessInfo.phone biz)))).
Proof.
  intros st1. split.
  - unfold foldBatch at 1. apply foldBatch_all_known.
    apply (foldBatch_known w targetCampaignId batch (st, [])).
  - intros st0 batchToSave biz. rewrite <- exists_in_spec. unfold foldCandidate.
    destruct (exists_in (currentLeadsState st0) targetCampaignId biz); simpl.
    + done.
    + split; [lia | done].
Qed.

(** ** Phone duplicates *)

Lemma sortInsert_perm cmp x l : sortInsert cmp x l ≡ₚ x :: l.
Proof.
  induction l as [|y l IH]; simpl; [done|].
  destruct (swaps cmp x y); [|done]. rewrite IH. apply Permutation_swap.
Qed.

Lemma sort_perm cmp l : sort cmp l ≡ₚ l.
Proof.
  induction l as [|x l IH]; simpl; [done|].
  rewrite sortInsert_perm. by f_equiv.
Qed.




Lemma scan_snoc pre l : scan (pre ++ [l]) = scanStep (scan pre) l.
Proof. unfold scan. by rewrite fold_left_app. Qed.

(** The phones seen so far are the non-empty normalized phones of the leads
    scanned so far. *)
Lemma scan_seen pre p :
  is_Some (phoneMap (scan pre) !! p) ↔ p ≠ "" ∧ ∃ l', l' ∈ pre ∧ phoneKey l' = p.
Proof.
  revert p. induction pre as [|l pre IH] using rev_ind; intros p.
  { simpl. rewrite lookup_empty. split; [by intros [? ?]|].
    by intros (_ & l' & ?%elem_of_nil & _). }
  rewrite scan_snoc. unfold scanStep. fold (phoneKey l).
  setoid_rewrite elem_of_app. setoid_rewrite list_elem_of_singleton.
  unfold JsString.truthy.
  destruct (decide (phoneKey l = "")) as [He|He].
  - rewrite bool_decide_eq_true_2 by done. simpl. rewrite IH.
    split; intros (Hp & l' & Hl' & Hk); (split; [done|]); exists l'.
    + split; [by left | done].
    + destruct Hl' as [? | ->]; [done | congruence].
  - rewrite bool_decide_eq_false_2 by done. simpl.
    case_bool_decide as Hin; simpl.
    + rewrite IH. split; intros (Hp & l' & Hl' & Hk); (split; [done|]).
      * exists l'. split; [by left | done].
      * destruct Hl' as [? | ->]; [by exists l'|].
        apply IH in Hin as (_ & l'' & ? & ?). exists l''. split; [done | congruence].
    + destruct (decide (phoneKey l = p)) as [<-|Hne].
      * rewrite lookup_insert_eq. split; [|by eexists].
        intros _. split; [done|]. exists l. split; [by right | done].
      * rewrite lookup_insert_ne by done. rewrite IH.
        split; intros (Hp & l' & Hl' & Hk); (split; [done|]); exists l'.
        -- split; [by left | done].
        -- destruct Hl' as [? | ->]; [done | congruence].
Qed.

(** One step of the scan: flagged exactly when the phone is not empty and
    was seen. *)
Lemma scan_step pre l :
  let seen := phoneKey l ≠ "" ∧ ∃ l', l' ∈ pre ∧ phoneKey l' = phoneKey l in
  (seen → dupesFound (scan (pre ++ [l])) = dupesFound (scan pre) ++ [l]
          ∧ keptLeads (scan (pre ++ [l])) = keptLeads (scan pre))
  ∧ (¬ seen → dupesFound (scan (pre ++ [l])) = dupesFound (scan pre)
              ∧ keptLeads (scan (pre ++ [l])) = keptLeads (scan pre) ++ [l]).
Proof.
  intros seen. subst seen. rewrite <- scan_seen, scan_snoc.
  unfold scanStep. fold (phoneKey l). unfold JsString.truthy.
  split.
  - intros Hs. rewrite (bool_decide_eq_true_2 _ Hs).
    assert (phoneKey l ≠ "") as Hne by (by apply scan_seen in Hs as [? _]).
    by rewrite (bool_decide_eq_false_2 _ Hne).
  - intros Hs. rewrite (bool_decide_eq_false_2 _ Hs). by rewrite andb_false_r.
Qed.







(** ** The mining loop *)

(** C6.  When the search of a neighbourhood throws, the message decides: with
    [429] in it the loop stops there, nothing after it is searched, and the
    come-back-later message is shown; otherwise with [API_KEY_MISSING] in it
    the loop stops and the configuration message is shown; otherwise the
    generic message is shown and the loop goes on with the next
    neighbourhood.  The leads folded so far stay as they are. *)
Theorem mining_error_classification (w : World) (targetCampaignId : string)
    (i : nat) (barrio : string) (rest : list string) (st : Mining) (sh : Shown)
    (msg : string) :
  searchBusinesses w i barrio = Thrown msg →
  let say m := mkShown (shownLeads sh) (Some m) (shownLog sh) (savedBatches sh)
                       (searched sh ++ [barrio]) in
  (JsString.includes "429" msg = true →
     mineLoop w targetCampaignId i (barrio :: rest) (st, sh) = (st, say quotaMessage))
  ∧ (JsString.includes "429" msg = false →
     JsString.includes "API_KEY_MISSING" msg = true →
     mineLoop w targetCampaignId i (barrio :: rest) (st, sh) = (st, say keyMessage))
  ∧ (JsString.includes "429" msg = false →
     JsString.includes "API_KEY_MISSING" msg = false →
     mineLoop w targetCampaignId i (barrio :: rest) (st, sh)
     = mineLoop w targetCampaignId (S i) rest (st, say unexpectedMessage)).
Proof.
  intros Hthrown say.
  split_and!; [intros Hq | intros Hq Hk | intros Hq Hk];
    cbn [mineLoop]; unfold mineNeighborhood; rewrite Hthrown, Hq; [done | |];
    by rewrite Hk.
Qed.

(** The timer of the [finally] block is set by what was on display when the
    run started, not by what the run itself reported. *)
Lemma navigates_spec w app r :
  handleStartMining w app = Some r →
  navigates r
  = (match App.errorMessage app with
     | None => true
     | Some m => negb (JsString.truthy m)
     end) && bool_decide (0 < totalNew (runMining r)).
Proof.
  unfold handleStartMining. destruct (_ || _); [done|].
  destruct (resolveTarget w app) as [[[cs c] target] reads].
  destruct (mineLoop _ _ _ _ _) as [st sh]. by intros [= <-].
Qed.

(** C7 at a run that accepts a lead in the first neighbourhood and is cut
    short by the quota error in the second: the run ends with the error
    shown and still sets the timer; and a run without any error that accepts
    a lead does not set it when an old message was on display. *)
Theorem navigation_reads_stale_error :
  (∃ r, handleStartMining sampleWorld (sampleApp None) = Some r
        ∧ shownError (runShown r) = Some quotaMessage
        ∧ searched (runShown r) = ["Centro"; "Moema"]
        ∧ totalNew (runMining r) = 1
        ∧ navigates r = true)
  ∧ (∃ r, handleStartMining steadyWorld (sampleApp (Some "Nenhum bairro encontrado para esta cidade.")) = Some r
        ∧ shownError (runShown r) = None
        ∧ totalNew (runMining r) = 1
        ∧ navigates r = false).
Proof.
  split; eexists; (split; [vm_compute; reflexivity|]); by vm_compute.
Qed.

(** ** Lead updates *)

Lemma replaceById_lookup selectedId updatedLead prev i l :
  prev !! i = Some l →
  replaceById selectedId updatedLead prev !! i
  = Some (if decide (BusinessInfo.id l = selectedId) then updatedLead else l).
Proof. intros Hi. unfold replaceById. by rewrite list_lookup_fmap, Hi. Qed.

Lemma clickWhatsApp_lookup selectedLead leads i l :
  leads !! i = Some l →
  (clickWhatsApp selectedLead leads).1 !! i
  = Some (if decide (BusinessInfo.id l = BusinessInfo.id selectedLead)
          then BusinessInfo.with_status contacted l else l).
Proof. intros Hi. unfold clickWhatsApp; simpl. by rewrite list_lookup_fmap, Hi. Qed.

Lemma clickWhatsApp_saved selectedLead leads :
  (clickWhatsApp selectedLead leads).2
  = snd <$> list_find (fun x => BusinessInfo.id x = BusinessInfo.id selectedLead)
                      (clickWhatsApp selectedLead leads).1.
Proof. reflexivity. Qed.

(** C8, as the code has it.  The WhatsApp link sets the status of every lead
    with the selected id to contacted, whatever it was, and leaves the other
    leads alone; doing it again changes nothing; each time the first lead
    with that id is handed to the remote store, with status contacted. *)
Theorem contact_transition (selectedLead : BusinessInfo.t) (leads : list BusinessInfo.t) :
  let up := (clickWhatsApp selectedLead leads).1 in
  (∀ i l, leads !! i = Some l →
     up !! i = Some (if decide (BusinessInfo.id l = BusinessInfo.id selectedLead)
                     then BusinessInfo.with_status contacted l else l))
  ∧ (clickWhatsApp selectedLead up).1 = up
  ∧ (∀ l, l ∈ leads → BusinessInfo.id l = BusinessInfo.id selectedLead →
       ∃ saved, (clickWhatsApp selectedLead leads).2 = Some saved
                ∧ (clickWhatsApp selectedLead up).2 = Some saved
                ∧ BusinessInfo.id saved = BusinessInfo.id selectedLead
                ∧ BusinessInfo.status saved = contacted).
Proof.
  intros up.
  assert (Hidem : (clickWhatsApp selectedLead up).1 = up).
  { subst up. unfold clickWhatsApp; simpl. rewrite <- list_fmap_compose.
    apply list_fmap_ext. intros _ l _; simpl.
    destruct (decide (BusinessInfo.id l = _)) as [He|He]; simpl.
    - by rewrite decide_True.
    - by rewrite decide_False. }
  split_and!; [intros i l; apply clickWhatsApp_lookup | done |].
  intros l Hl Hid.
  assert (Hup : BusinessInfo.with_status contacted l ∈ up).
  { subst up. unfold clickWhatsApp; simpl. apply list_elem_of_fmap. exists l.
    by rewrite decide_True. }
  destruct (list_find_elem_of
              (fun x => BusinessInfo.id x = BusinessInfo.id selectedLead) up _ Hup Hid)
    as [[i saved] Hfind].
  exists saved. rewrite !clickWhatsApp_saved, Hidem. fold up. rewrite Hfind.
  split_and!; [done | done | |].
  - by apply list_find_Some in Hfind as (_ & ? & _).
  - apply list_find_Some in Hfind as (Hi%list_elem_of_lookup_2 & Hs & _).
    subst up. unfold clickWhatsApp in Hi; simpl in Hi.
    apply list_elem_of_fmap in Hi as (l0 & -> & _).
    destruct (decide (BusinessInfo.id l0 = _)) as [He|He]; [done|].
    by destruct He.
Qed.

(** C10.  The three updates from the detail view pick the leads to rewrite
    by [id] alone.  For two leads with one id under different campaigns: a
    status button pressed for the first puts the first lead, with the new
    status, in the place of the second; a generated pitch puts the first
    lead, with the pitch as notes, in its place; the WhatsApp link sets the
    status of the second to contacted. *)
Theorem update_by_id_ignores_campaign
    (prev : list BusinessInfo.t) (i j : nat) (a b : BusinessInfo.t) :
  prev !! i = Some a → prev !! j = Some b →
  BusinessInfo.id a = BusinessInfo.id b →
  BusinessInfo.campaignId a ≠ BusinessInfo.campaignId b →
  (∀ s, (clickStatus a s prev).1.2 !! j = Some (BusinessInfo.with_status s a))
  ∧ (∀ pitch, (handleGeneratePitch a pitch prev).1.2 !! j
              = Some (BusinessInfo.with_notes pitch a))
  ∧ (clickWhatsApp a prev).1 !! j = Some (BusinessInfo.with_status contacted b).
Proof.
  intros Hi Hj Hid Hcid. split_and!.
  - intros s. unfold clickStatus; simpl.
    rewrite (replaceById_lookup _ _ _ _ _ Hj). by rewrite decide_True.
  - intros pitch. unfold handleGeneratePitch; simpl.
    rewrite (replaceById_lookup _ _ _ _ _ Hj). by rewrite decide_True.
  - rewrite (clickWhatsApp_lookup _ _ _ _ Hj). by rewrite decide_True.
Qed.

(** * Further properties of the code *)

(** ** Normalization *)

Lemma alnum_not_upper c : alnum c = true → JsString.is_upper c = false.
Proof. destruct c as [[] [] [] [] [] [] [] []]; vm_compute; congruence. Qed.

Lemma alnum_not_space c : alnum c = true → JsString.is_space c = false.
Proof. destruct c as [[] [] [] [] [] [] [] []]; vm_compute; congruence. Qed.

Lemma lower_upper_ascii c :
  JsString.lower_ascii (JsString.upper_ascii c) = JsString.lower_ascii c.
Proof. by destruct c as [[] [] [] [] [] [] [] []]. Qed.

Lemma lower_lower_ascii c :
  JsString.lower_ascii (JsString.lower_ascii c) = JsString.lower_ascii c.
Proof. by destruct c as [[] [] [] [] [] [] [] []]. Qed.

Lemma alnum_is_ascii c : alnum c = true → JsString.is_ascii c = true.
Proof. destruct c as [[] [] [] [] [] [] [] []]; vm_compute; congruence. Qed.

Lemma upper_ascii_is_ascii c :
  JsString.is_ascii c = true → JsString.is_ascii (JsString.upper_ascii c) = true.
Proof. destruct c as [[] [] [] [] [] [] [] []]; vm_compute; congruence. Qed.

Lemma lower_ascii_is_ascii c :
  JsString.is_ascii c = true → JsString.is_ascii (JsString.lower_ascii c) = true.
Proof. destruct c as [[] [] [] [] [] [] [] []]; vm_compute; congruence. Qed.

Lemma asciiToLowerCase_asciiToUpperCase s :
  JsString.asciiToLowerCase (JsString.asciiToUpperCase s) = JsString.asciiToLowerCase s.
Proof. induction s as [|c s IH]; simpl; [done|]. by rewrite lower_upper_ascii, IH. Qed.

Lemma asciiToLowerCase_asciiToLowerCase s :
  JsString.asciiToLowerCase (JsString.asciiToLowerCase s) = JsString.asciiToLowerCase s.
Proof. induction s as [|c s IH]; simpl; [done|]. by rewrite lower_lower_ascii, IH. Qed.

Lemma isAscii_asciiToUpperCase s :
  JsString.isAscii s = true → JsString.isAscii (JsString.asciiToUpperCase s) = true.
Proof.
  induction s as [|c s IH]; simpl; [done|].
  intros [Hc Hs]%andb_true_iff. by rewrite (upper_ascii_is_ascii _ Hc), IH.
Qed.

Lemma isAscii_asciiToLowerCase s :
  JsString.isAscii s = true → JsString.isAscii (JsString.asciiToLowerCase s) = true.
Proof.
  induction s as [|c s IH]; simpl; [done|].
  intros [Hc Hs]%andb_true_iff. by rewrite (lower_ascii_is_ascii _ Hc), IH.
Qed.

(** On ASCII text the case mappings are those of the letters. *)
Lemma toLowerCase_ascii s :
  JsString.isAscii s = true → JsString.toLowerCase engine s = JsString.asciiToLowerCase s.
Proof. unfold JsString.toLowerCase. by intros ->. Qed.

Lemma toUpperCase_ascii s :
  JsString.isAscii s = true → JsString.toUpperCase engine s = JsString.asciiToUpperCase s.
Proof. unfold JsString.toUpperCase. by intros ->. Qed.

Lemma toLowerCase_toUpperCase s :
  JsString.isAscii s = true →
  JsString.toLowerCase engine (JsString.toUpperCase engine s) = JsString.toLowerCase engine s.
Proof.
  intros Hs. rewrite (toUpperCase_ascii _ Hs), (toLowerCase_ascii _ Hs).
  rewrite toLowerCase_ascii by by apply isAscii_asciiToUpperCase.
  apply asciiToLowerCase_asciiToUpperCase.
Qed.

Lemma toLowerCase_toLowerCase s :
  JsString.isAscii s = true →
  JsString.toLowerCase engine (JsString.toLowerCase engine s) = JsString.toLowerCase engine s.
Proof.
  intros Hs. rewrite !(toLowerCase_ascii _ Hs).
  rewrite toLowerCase_ascii by by apply isAscii_asciiToLowerCase.
  apply asciiToLowerCase_asciiToLowerCase.
Qed.

Lemma allChars_keep p s : allChars p (JsString.keep p s) = true.
Proof.
  induction s as [|c s IH]; simpl; [done|].
  destruct (p c) eqn:Hc; simpl; [by rewrite Hc|done].
Qed.

Lemma keep_all p s : allChars p s = true → JsString.keep p s = s.
Proof.
  induction s as [|c s IH]; simpl; [done|].
  intros [Hc Hs]%andb_true_iff. by rewrite Hc, IH.
Qed.

Lemma isAscii_alnum s : allChars alnum s = true → JsString.isAscii s = true.
Proof.
  induction s as [|c s IH]; simpl; [done|].
  intros [Hc Hs]%andb_true_iff. by rewrite (alnum_is_ascii _ Hc), IH.
Qed.

Lemma asciiToLowerCase_alnum s :
  allChars alnum s = true → JsString.asciiToLowerCase s = s.
Proof.
  induction s as [|c s IH]; simpl; [done|].
  intros [Hc Hs]%andb_true_iff. unfold JsString.lower_ascii.
  by rewrite (alnum_not_upper _ Hc), IH.
Qed.

Lemma toLowerCase_alnum s : allChars alnum s = true → JsString.toLowerCase engine s = s.
Proof.
  intros Hs. rewrite toLowerCase_ascii by by apply isAscii_alnum.
  by apply asciiToLowerCase_alnum.
Qed.

Lemma allChars_rev_onto p s acc :
  allChars p s = true → allChars p acc = true →
  allChars p (JsString.rev_onto s acc) = true.
Proof.
  revert acc. induction s as [|c s IH]; intros acc; simpl; [done|].
  intros [Hc Hs]%andb_true_iff Hacc. apply IH; [done|]. simpl. by rewrite Hc.
Qed.

Lemma rev_onto_rev_onto s acc acc' :
  JsString.rev_onto (JsString.rev_onto s acc) acc'
  = JsString.rev_onto acc (JsString.rev_onto (JsString.rev_onto s "") acc').
Proof.
  revert acc acc'. induction s as [|c s IH]; intros acc acc'; simpl; [done|].
  rewrite IH. simpl. by rewrite (IH (String c "")).
Qed.

Lemma rev_rev s : JsString.rev (JsString.rev s) = s.
Proof.
  unfold JsString.rev. induction s as [|c s IH]; simpl; [done|].
  rewrite rev_onto_rev_onto. simpl. by rewrite IH.
Qed.

Lemma trimStart_alnum s : allChars alnum s = true → JsString.trimStart s = s.
Proof.
  destruct s as [|c s]; simpl; [done|].
  intros [Hc _]%andb_true_iff. by rewrite (alnum_not_space _ Hc).
Qed.

Lemma trim_alnum s : allChars alnum s = true → JsString.trim s = s.
Proof.
  intros Hs. unfold JsString.trim. rewrite (trimStart_alnum _ Hs).
  rewrite trimStart_alnum; [apply rev_rev|].
  unfold JsString.rev. by apply allChars_rev_onto.
Qed.

(** [trim] has nothing to strip after the replacement. *)
Lemma normalize_keep text :
  normalize text = JsString.keep alnum (JsString.toLowerCase engine text).
Proof. unfold normalize. apply trim_alnum, allChars_keep. Qed.

(** The upper-cased form of ASCII text has the normal form of the text. *)
Lemma normalize_toUpperCase text :
  JsString.isAscii text = true →
  normalize (JsString.toUpperCase engine text) = normalize text.
Proof. intros Ht. by rewrite !normalize_keep, toLowerCase_toUpperCase. Qed.

(** X1.  [normalize] is idempotent and its result has only characters of
    [a-z0-9], whatever the text; for ASCII text it does not see the case. *)
Theorem normalize_idempotent (text : string) :
  normalize (normalize text) = normalize text
  ∧ allChars alnum (normalize text) = true
  ∧ (JsString.isAscii text = true →
     normalize (JsString.toUpperCase engine text) = normalize text
     ∧ normalize (JsString.toLowerCase engine text) = normalize text).
Proof.
  rewrite !normalize_keep.
  pose proof (allChars_keep alnum (JsString.toLowerCase engine text)) as Hall.
  split_and!; [| done |].
  - rewrite (toLowerCase_alnum _ Hall). by apply keep_all.
  - intros Ht. by rewrite toLowerCase_toUpperCase, toLowerCase_toLowerCase.
Qed.

(** ** Target-campaign resolution *)

Lemma resolveTarget_new w app :
  list_find (fun c => normalize (Campaign.niche c) = normalize (App.niche app))
            (App.campaigns app) = None →
  let newCampaign :=
    Campaign.mk (dateNow w 0) (JsString.toUpperCase engine (App.niche app)) (App.city app)
                (toISOString w 0) (toISOString w 1) in
  campaignsAfter w app = newCampaign :: App.campaigns app
  ∧ targetOf w app = dateNow w 0.
Proof. intros Hf. unfold campaignsAfter, targetOf, resolveTarget. by rewrite Hf. Qed.

Lemma resolveTarget_existing w app i existing :
  list_find (fun c => normalize (Campaign.niche c) = normalize (App.niche app))
            (App.campaigns app) = Some (i, existing) →
  let updated :=
    Campaign.mk (Campaign.id existing) (Campaign.niche existing)
                (Campaign.city existing) (Campaign.createdAt existing)
                (toISOString w 0) in
  campaignsAfter w app
  = (fun c => if decide (Campaign.id c = Campaign.id existing) then updated else c)
      <$> App.campaigns app
  ∧ targetOf w app = Campaign.id existing.
Proof. intros Hf. unfold campaignsAfter, targetOf, resolveTarget. by rewrite Hf. Qed.

Lemma replace_by_id_ids (i : string) (u : Campaign.t) (cs : list Campaign.t) :
  Campaign.id u = i →
  Campaign.id <$> ((fun c => if decide (Campaign.id c = i) then u else c) <$> cs)
  = Campaign.id <$> cs.
Proof.
  intros Hu. rewrite <- list_fmap_compose. apply list_fmap_ext.
  intros _ c _. simpl. by destruct (decide (Campaign.id c = i)); simplify_eq.
Qed.

(** The ids of the campaign list never change when an existing campaign is
    reused. *)
Lemma resolveTarget_target_in w app :
  targetOf w app ∈ Campaign.id <$> campaignsAfter w app.
Proof.
  destruct (list_find (fun c => normalize (Campaign.niche c) = normalize (App.niche app))
              (App.campaigns app)) as [[i ex]|] eqn:Hf.
  - destruct (resolveTarget_existing w app i ex Hf) as [-> ->].
    rewrite replace_by_id_ids by done.
    apply list_find_Some in Hf as (Hi & _ & _).
    apply list_elem_of_fmap. exists ex. split; [done|].
    by eapply list_elem_of_lookup_2.
  - destruct (resolveTarget_new w app Hf) as [-> ->]. simpl. apply elem_of_cons. by left.
Qed.

(** The first campaign of the list with the key of the form's niche has the
    target id. *)
Lemma resolveTarget_first w app :
  JsString.isAscii (App.niche app) = true →
  ∃ j c, list_find (fun c => normalize (Campaign.niche c) = normalize (App.niche app))
                   (campaignsAfter w app) = Some (j, c)
         ∧ Campaign.id c = targetOf w app.
Proof.
  intros Hascii.
  destruct (list_find (fun c => normalize (Campaign.niche c) = normalize (App.niche app))
              (App.campaigns app)) as [[i ex]|] eqn:Hf.
  - destruct (resolveTarget_existing w app i ex Hf) as [-> ->].
    set (upd := Campaign.mk _ _ _ _ _).
    set (f := fun c => if decide (Campaign.id c = Campaign.id ex) then upd else c).
    apply list_find_Some in Hf as (Hi & Hk & Hbefore).
    assert (Hupd : (f <$> App.campaigns app) !! i = Some upd).
    { rewrite list_lookup_fmap, Hi. simpl. unfold f. by rewrite decide_True. }
    destruct (list_find_elem_of
                (fun c => normalize (Campaign.niche c) = normalize (App.niche app))
                (f <$> App.campaigns app) upd) as [[j c] Hfind];
      [by eapply list_elem_of_lookup_2 | done |].
    exists j, c. split; [done|].
    apply list_find_Some in Hfind as (Hj & Hkc & Hfirst).
    rewrite list_lookup_fmap in Hj.
    destruct (App.campaigns app !! j) as [c0|] eqn:Hc0; simplify_eq/=.
    unfold f in *. destruct (decide (Campaign.id c0 = Campaign.id ex)) as [He|He]; [done|].
    destruct (decide (j < i)) as [Hlt|Hge]; [by destruct (Hbefore j c0 Hc0 Hlt)|].
    destruct (decide (i < j)) as [Hlt|Hle]; [by destruct (Hfirst i upd Hupd Hlt)|].
    assert (i = j) as -> by lia. by simplify_eq.
  - destruct (resolveTarget_new w app Hf) as [-> ->]. simpl.
    exists 0, (Campaign.mk (dateNow w 0) (JsString.toUpperCase engine (App.niche app))
                 (App.city app) (toISOString w 0) (toISOString w 1)).
    split; [|done]. rewrite decide_True; [done|]. simpl.
    by apply normalize_toUpperCase.
Qed.

(** X2.  A niche written in ASCII that is mined again, in whatever spelling
    with the same normalized form, goes to the campaign of the first run:
    the second resolution has the same target id, adds no campaign and keeps
    every id. *)
Theorem resolveTarget_reuses (w w' : World) (app : App.t) (niche' : string) :
  JsString.isAscii (App.niche app) = true →
  normalize niche' = normalize (App.niche app) →
  let again := resubmitted (campaignsAfter w app) niche' app in
  targetOf w' again = targetOf w app
  ∧ Campaign.id <$> campaignsAfter w' again = Campaign.id <$> campaignsAfter w app.
Proof.
  intros Hascii Hn again.
  destruct (resolveTarget_first w app Hascii) as (j & c & Hfind & Hid).
  assert (Hfind' : list_find
            (fun c => normalize (Campaign.niche c) = normalize (App.niche again))
            (App.campaigns again) = Some (j, c)).
  { simpl. rewrite <- Hfind. apply list_find_ext. intros x. by rewrite Hn. }
  destruct (resolveTarget_existing w' again j c Hfind') as [-> ->].
  split; [done|]. by rewrite replace_by_id_ids.
Qed.

(** X3.  One campaign per normalized niche is kept by the resolution of a
    niche written in ASCII, when the campaign ids are pairwise distinct. *)
Theorem resolveTarget_keeps_one_per_niche (w : World) (app : App.t) :
  JsString.isAscii (App.niche app) = true →
  NoDup (Campaign.id <$> App.campaigns app) →
  NoDup (campaignKey <$> App.campaigns app) →
  NoDup (campaignKey <$> campaignsAfter w app).
Proof.
  intros Hascii Hids Hkeys.
  destruct (list_find (fun c => normalize (Campaign.niche c) = normalize (App.niche app))
              (App.campaigns app)) as [[i ex]|] eqn:Hf.
  - destruct (resolveTarget_existing w app i ex Hf) as [-> _].
    apply list_find_Some in Hf as (Hi & _ & _).
    rewrite <- list_fmap_compose.
    erewrite list_fmap_ext; [exact Hkeys|].
    intros j c Hj. simpl.
    destruct (decide (Campaign.id c = Campaign.id ex)) as [He|He]; [|done].
    assert (j = i) as ->.
    { eapply (NoDup_lookup _ j i (Campaign.id ex) Hids);
        by rewrite list_lookup_fmap, ?Hj, ?Hi; simpl; rewrite ?He. }
    by simplify_eq.
  - destruct (resolveTarget_new w app Hf) as [-> _].
    rewrite fmap_cons. apply NoDup_cons. split; [|done].
    apply list_find_None in Hf. rewrite Forall_forall in Hf.
    intros (c & Hc & Hin)%list_elem_of_fmap. apply (Hf c Hin).
    unfold campaignKey, deriveCampaignKey in Hc. simpl in Hc. rewrite <- Hc.
    by apply normalize_toUpperCase.
Qed.

(** ** What a mining run does to the lead list *)

Lemma foldCandidate_skip w target st bs b :
  exists_in (currentLeadsState st) target b = true →
  foldCandidate w target (st, bs) b
  = (mkMining (currentLeadsState st) (totalNew st) (S (totalSkipped st))
       (totalMobile st) (totalLandline st) (allSources st)
       (processedBairros st) (tick st), bs).
Proof. intros He. unfold foldCandidate. by rewrite He. Qed.

Lemma foldCandidate_accept w target st bs b :
  exists_in (currentLeadsState st) target b = false →
  let leadData := BusinessInfo.stamped target (toISOString w (tick st)) b in
  foldCandidate w target (st, bs) b
  = (mkMining (currentLeadsState st ++ [leadData]) (S (totalNew st)) (totalSkipped st)
       (if bool_decide (BusinessInfo.type b = mobile)
        then S (totalMobile st) else totalMobile st)
       (if bool_decide (BusinessInfo.type b = mobile)
        then totalLandline st else S (totalLandline st))
       (allSources st) (processedBairros st) (S (tick st)),
     bs ++ [leadData]).
Proof. intros He. unfold foldCandidate. by rewrite He. Qed.

Lemma foldBatch_accounted w target batch st bs st' bs' :
  fold_left (foldCandidate w target) batch (st, bs) = (st', bs') →
  ∃ accepted,
    currentLeadsState st' = currentLeadsState st ++ accepted
    ∧ bs' = bs ++ accepted
    ∧ totalNew st' = totalNew st + List.length accepted
    ∧ totalMobile st' + totalLandline st'
      = totalMobile st + totalLandline st + List.length accepted
    ∧ Forall (fun l => BusinessInfo.campaignId l = Some (Str target)
                       ∧ is_Some (BusinessInfo.lastSeenAt l)) accepted
    ∧ allSources st' = allSources st
    ∧ processedBairros st' = processedBairros st.
Proof.
  revert st bs. induction batch as [|b batch IH]; intros st bs.
  { intros [= <- <-]. exists []. rewrite !app_nil_r. split_and!; try done; simpl; lia. }
  cbn [fold_left].
  destruct (exists_in (currentLeadsState st) target b) eqn:He.
  - rewrite (foldCandidate_skip _ _ _ _ _ He). intros Hf.
    destruct (IH _ _ Hf) as (acc & H1 & H2 & H3 & H4 & H5 & H6 & H7).
    by exists acc.
  - rewrite (foldCandidate_accept _ _ _ _ _ He). intros Hf.
    destruct (IH _ _ Hf) as (acc & H1 & H2 & H3 & H4 & H5 & H6 & H7).
    simpl in H1, H2, H3, H4, H6, H7.
    exists (BusinessInfo.stamped target (toISOString w (tick st)) b :: acc).
    rewrite H1, H2, <- !app_assoc. split_and!; try done.
    + simpl. lia.
    + simpl. destruct (bool_decide _); lia.
    + constructor; [|done]. split; [done | by eexists].
Qed.

Lemma accounted_refl target acc : accounted target [] acc acc.
Proof.
  unfold accounted. rewrite !app_nil_r. split_and!; try done; try lia.
Qed.

Lemma accounted_trans target a1 a2 x y z :
  accounted target a1 x y → accounted target a2 y z → accounted target (a1 ++ a2) x z.
Proof.
  destruct x as [x1 x2], y as [y1 y2], z as [z1 z2]. unfold accounted; simpl.
  intros (H1 & H2 & H3 & H4 & H5 & H6) (K1 & K2 & K3 & K4 & K5 & K6).
  split_and!.
  - by rewrite K1, H1, app_assoc.
  - by rewrite K2, H2, app_assoc.
  - rewrite K3, H3, length_app. lia.
  - rewrite K4, H4, length_app. lia.
  - by apply Forall_app.
  - rewrite K6. destruct a2 as [|l a2].
    + rewrite app_nil_r, H6. destruct a1; [done|]. by rewrite K1, app_nil_r.
    + by destruct a1.
Qed.

Lemma mineNeighborhood_accounted w target i barrio acc :
  ∃ accepted, accounted target accepted acc (mineNeighborhood w target i barrio acc).1.
Proof.
  destruct acc as [st sh]. unfold mineNeighborhood.
  destruct (searchBusinesses w i barrio) as [result|msg].
  - set (st0 := mkMining _ _ _ _ _ (allSources st ++ sources result) _ _).
    unfold foldBatch.
    destruct (fold_left _ (businesses result) (st0, [])) as [st1 batchToSave] eqn:Hfold.
    destruct (foldBatch_accounted _ _ _ _ _ _ _ Hfold)
      as (accepted & H1 & H2 & H3 & H4 & H5 & _ & _).
    simpl in *. subst batchToSave. exists accepted. unfold accounted.
    destruct accepted as [|l accepted]; simpl.
    + rewrite !app_nil_r in *. split_and!; try done; lia.
    + rewrite concat_app. simpl. rewrite app_nil_r. split_and!; try done.
  - exists []. destruct (JsString.includes "429" msg);
      [|destruct (JsString.includes "API_KEY_MISSING" msg)]; simpl;
      unfold accounted; simpl; rewrite !app_nil_r; split_and!; try done; lia.
Qed.

Lemma mineLoop_accounted w target bairros i acc :
  ∃ accepted, accounted target accepted acc (mineLoop w target i bairros acc).
Proof.
  revert i acc. induction bairros as [|b bairros IH]; intros i acc.
  { exists []. apply accounted_refl. }
  cbn [mineLoop].
  destruct (mineNeighborhood_accounted w target i b acc) as [a1 H1].
  destruct (mineNeighborhood w target i b acc) as [[st sh] []]; simpl in H1.
  - destruct (IH (S i) (st, sh)) as [a2 H2].
    exists (a1 ++ a2). by eapply accounted_trans.
  - by exists a1.
Qed.

(** X4.  A mining run only appends to the lead list it started from: the
    leads after the run are those before it followed by the accepted ones,
    in memory as they were handed to the remote store; they are counted in
    [totalNew], each as mobile or landline, and carry the target campaign and
    a timestamp; the lead list is published when one was accepted. *)
Theorem mining_run_appends (w : World) (app : App.t) (r : Run) :
  handleStartMining w app = Some r →
  ∃ accepted,
    currentLeadsState (runMining r) = App.leads app ++ accepted
    ∧ List.concat (savedBatches (runShown r)) = accepted
    ∧ totalNew (runMining r) = List.length accepted
    ∧ totalMobile (runMining r) + totalLandline (runMining r) = List.length accepted
    ∧ Forall (fun l => BusinessInfo.campaignId l = Some (Str (targetOf w app))
                       ∧ is_Some (BusinessInfo.lastSeenAt l)) accepted
    ∧ shownLeads (runShown r)
      = match accepted with
        | [] => None
        | _ :: _ => Some (currentLeadsState (runMining r))
        end.
Proof.
  unfold handleStartMining, targetOf. destruct (_ || _); [done|].
  destruct (resolveTarget w app) as [[[cs c] target] reads].
  set (acc0 := (mkMining (App.leads app) 0 0 0 0 [] [] reads,
                mkShown None None (0, 0, 0, 0) [] [])).
  destruct (mineLoop_accounted w target (App.selectedNeighborhoods app) 0 acc0)
    as (accepted & H1 & H2 & H3 & H4 & H5 & H6).
  destruct (mineLoop _ _ _ _ acc0) as [st sh]. intros [= <-].
  exists accepted. simpl in *. by split_and!.
Qed.

(** ** Invariants of the lead list under mining *)

Section LeadInvariant.
Variable Inv : list BusinessInfo.t → Prop.
Hypothesis Inv_step : ∀ w target st bs biz,
  Inv (currentLeadsState st) →
  Inv (currentLeadsState (foldCandidate w target (st, bs) biz).1).

Lemma foldBatch_invariant w target batch acc :
  Inv (currentLeadsState acc.1) →
  Inv (currentLeadsState (fold_left (foldCandidate w target) batch acc).1).
Proof.
  revert acc. induction batch as [|b batch IH]; intros [st bs] Hst; [done|].
  cbn [fold_left]. apply IH.
  destruct (foldCandidate w target (st, bs) b) as [st1 bs1] eqn:Hb.
  pose proof (Inv_step w target st bs b Hst) as Hs. by rewrite Hb in Hs.
Qed.

Lemma mineNeighborhood_invariant w target i barrio acc :
  Inv (currentLeadsState acc.1) →
  Inv (currentLeadsState (mineNeighborhood w target i barrio acc).1.1).
Proof.
  destruct acc as [st sh]. intros Hst. unfold mineNeighborhood.
  destruct (searchBusinesses w i barrio) as [result|msg].
  - set (st0 := mkMining _ _ _ _ _ (allSources st ++ sources result) _ _).
    pose proof (foldBatch_invariant w target (businesses result) (st0, []) Hst) as Hf.
    unfold foldBatch. by destruct (fold_left _ (businesses result) (st0, [])).
  - destruct (JsString.includes "429" msg);
      [|destruct (JsString.includes "API_KEY_MISSING" msg)]; done.
Qed.

Lemma mineLoop_invariant w target bairros i acc :
  Inv (currentLeadsState acc.1) →
  Inv (currentLeadsState (mineLoop w target i bairros acc).1).
Proof.
  revert i acc. induction bairros as [|b bairros IH]; intros i acc Hacc; [done|].
  cbn [mineLoop].
  pose proof (mineNeighborhood_invariant w target i b acc Hacc) as Hn.
  destruct (mineNeighborhood w target i b acc) as [[st sh] []]; [|done].
  by apply IH.
Qed.

Lemma handleStartMining_invariant w app r :
  handleStartMining w app = Some r →
  Inv (App.leads app) → Inv (currentLeadsState (runMining r)).
Proof.
  unfold handleStartMining. destruct (_ || _); [done|].
  destruct (resolveTarget w app) as [[[cs c] target] reads].
  set (acc0 := (mkMining (App.leads app) 0 0 0 0 [] [] reads,
                mkShown None None (0, 0, 0, 0) [] [])).
  pose proof (mineLoop_invariant w target (App.selectedNeighborhoods app) 0 acc0) as Hl.
  destruct (mineLoop _ _ _ _ acc0) as [st sh]. intros [= <-] Hi. by apply Hl.
Qed.
End LeadInvariant.

Lemma phonesDistinct_snoc l x :
  phonesDistinct (l ++ [x]) ↔
  phonesDistinct l ∧ (phoneKey x ≠ "" → ∀ l', l' ∈ l → phoneKey l' ≠ phoneKey x).
Proof.
  unfold phonesDistinct. rewrite fmap_app, filter_app, NoDup_app. simpl.
  rewrite filter_cons, filter_nil.
  destruct (decide (phoneKey x ≠ "")) as [Hne|He].
  - split.
    + intros (H1 & H2 & _). split; [done|]. intros _ l' Hl' Heq.
      apply (H2 (phoneKey l')); [|rewrite Heq; by apply list_elem_of_singleton].
      apply list_elem_of_filter. split; [congruence|].
      apply list_elem_of_fmap. by exists l'.
    + intros [H1 H2]. split_and!; [done | | apply NoDup_singleton].
      intros p [Hp (l' & -> & Hl')%list_elem_of_fmap]%list_elem_of_filter
             Heq%list_elem_of_singleton.
      by apply (H2 Hne l').
  - split.
    + intros (H1 & _ & _). split; [done|]. by intros ?.
    + intros [H1 _]. split_and!; [done | | constructor].
      by intros ? _ ?%elem_of_nil.
Qed.

Lemma phonesDistinct_step w target st bs biz :
  phonesDistinct (currentLeadsState st) →
  phonesDistinct (currentLeadsState (foldCandidate w target (st, bs) biz).1).
Proof.
  intros Hst. destruct (exists_in (currentLeadsState st) target biz) eqn:He.
  - by rewrite foldCandidate_skip.
  - rewrite foldCandidate_accept by done. simpl.
    apply phonesDistinct_snoc. split; [done|].
    intros Hne l' Hl' Heq.
    assert (exists_in (currentLeadsState st) target biz = true); [|congruence].
    apply exists_in_spec. exists l'. split; [done|]. right. by split.
Qed.

(** A list without two equal non-empty phones has nothing to flag. *)
Lemma scan_nothing l : phonesDistinct l → dupesFound (scan l) = [].
Proof.
  induction l as [|x l IH] using rev_ind; [done|].
  intros [Hl Hx]%phonesDistinct_snoc.
  destruct (scan_step l x) as [_ Hno]. destruct Hno as [-> _]; [|by apply IH].
  intros (Hne & l' & Hl' & Heq). by apply (Hx Hne l').
Qed.

Lemma phonesDistinct_perm l l' : l ≡ₚ l' → phonesDistinct l → phonesDistinct l'.
Proof. unfold phonesDistinct. by intros ->. Qed.

Lemma filter_sublist_mono {A} (P : A → Prop) `{!∀ x, Decision (P x)} (l1 l2 : list A) :
  l1 `sublist_of` l2 → filter P l1 `sublist_of` filter P l2.
Proof.
  induction 1 as [|x l1 l2 _ IH|x l1 l2 _ IH]; [done| |]; rewrite !filter_cons.
  - destruct (decide (P x)); [by apply sublist_skip | done].
  - destruct (decide (P x)); [by apply sublist_cons | done].
Qed.

Lemma List_filter_sublist {A} (p : A → bool) (l : list A) : List.filter p l `sublist_of` l.
Proof.
  induction l as [|x l IH]; simpl; [done|].
  destruct (p x); [by apply sublist_skip | by apply sublist_cons].
Qed.

Lemma phonesDistinct_sublist l1 l2 :
  l1 `sublist_of` l2 → phonesDistinct l2 → phonesDistinct l1.
Proof.
  unfold phonesDistinct. intros Hs Hnd. eapply sublist_NoDup; [exact Hnd|].
  by apply filter_sublist_mono, fmap_sublist.
Qed.

Lemma targetLeads_sublist active campaigns leads :
  targetLeads active campaigns leads `sublist_of` leads.
Proof.
  unfold targetLeads. destruct active as [a|]; [|done].
  destruct (JsString.truthy a); [apply List_filter_sublist | done].
Qed.

Lemma findPhoneDuplicates_nothing scope :
  phonesDistinct scope → findPhoneDuplicates scope = [].
Proof.
  intros Hs. unfold findPhoneDuplicates. apply scan_nothing.
  eapply phonesDistinct_perm; [|exact Hs]. symmetry. apply sort_perm.
Qed.

(** X5.  Mining makes no phone duplicates: when no two leads had the same
    non-empty normalized phone before the run, none have after it, and a
    duplicate cleanup right after the run, in any folder or over all leads,
    flags nothing and leaves the lead list as it is. *)
Theorem mining_keeps_phones_distinct (w : World) (app : App.t) (r : Run) :
  handleStartMining w app = Some r →
  phonesDistinct (App.leads app) →
  let after := currentLeadsState (runMining r) in
  phonesDistinct after
  ∧ ∀ activeCampaignId campaigns,
      findPhoneDuplicates (targetLeads activeCampaignId campaigns after) = []
      ∧ handleCleanDuplicates activeCampaignId campaigns after = after.
Proof.
  intros Hr Hd after.
  assert (Ha : phonesDistinct after).
  { by apply (handleStartMining_invariant phonesDistinct phonesDistinct_step w app r). }
  split; [done|]. intros active cs.
  assert (Hn : findPhoneDuplicates (targetLeads active cs after) = []).
  { apply findPhoneDuplicates_nothing.
    eapply phonesDistinct_sublist; [apply targetLeads_sublist | done]. }
  split; [done|]. unfold handleCleanDuplicates. by rewrite Hn.
Qed.

Lemma pairsDistinct_step w target st bs biz :
  pairsDistinct (currentLeadsState st) →
  pairsDistinct (currentLeadsState (foldCandidate w target (st, bs) biz).1).
Proof.
  intros Hst. destruct (exists_in (currentLeadsState st) target biz) eqn:He.
  - by rewrite foldCandidate_skip.
  - rewrite foldCandidate_accept by done. simpl. unfold pairsDistinct in *.
    rewrite fmap_app. apply NoDup_app. split_and!; [done | | apply NoDup_singleton].
    intros p (l' & -> & Hl')%list_elem_of_fmap [= Hid Hcid]%list_elem_of_singleton.
    assert (exists_in (currentLeadsState st) target biz = true); [|congruence].
    apply exists_in_spec. exists l'. split; [done|]. left. by split.
Qed.

Lemma uniqueLeads_pairsDistinct rawLeads : pairsDistinct (uniqueLeads rawLeads).
Proof.
  pose proof (uniqueLeads_NoDup rawLeads) as Hk. unfold pairsDistinct.
  apply (NoDup_fmap_1 (fun p : string * option CampaignRef =>
                         p.1 +:+ "_" +:+ JsString.template (printRef <$> p.2))).
  by rewrite <- list_fmap_compose.
Qed.

(** X6.  Mining keeps the uniqueness of (id, campaignId): when no two leads
    shared both before the run, none do after it; in particular after a run
    started from the leads of the reconciliation merge. *)
Theorem mining_keeps_pairs_distinct (w : World) (app : App.t) (r : Run) :
  handleStartMining w app = Some r →
  (pairsDistinct (App.leads app) → pairsDistinct (currentLeadsState (runMining r)))
  ∧ (∀ lc ll cData lData,
       App.leads app = leads (mergeReplicas lc ll cData lData) →
       pairsDistinct (currentLeadsState (runMining r))).
Proof.
  intros Hr.
  assert (Hp : pairsDistinct (App.leads app) →
               pairsDistinct (currentLeadsState (runMining r))).
  { by apply (handleStartMining_invariant pairsDistinct pairsDistinct_step w app r). }
  split; [done|]. intros lc ll cData lData Hl. apply Hp.
  rewrite Hl, merged_leads. apply uniqueLeads_pairsDistinct.
Qed.

(** ** The order in which neighbourhoods are searched *)

Lemma mineNeighborhood_visit w target i b st sh :
  let r := mineNeighborhood w target i b (st, sh) in
  searched r.1.2 = searched sh ++ [b]
  ∧ match searchBusinesses w i b with
    | Resolved _ => r.2 = Next ∧ processedBairros r.1.1 = processedBairros st ++ [b]
    | Thrown msg =>
        processedBairros r.1.1 = processedBairros st
        ∧ (r.2 = Break →
           JsString.includes "429" msg = true
           ∨ JsString.includes "API_KEY_MISSING" msg = true)
    end.
Proof.
  unfold mineNeighborhood. destruct (searchBusinesses w i b) as [result|msg].
  - set (st0 := mkMining _ _ _ _ _ (allSources st ++ sources result) _ _).
    unfold foldBatch.
    destruct (fold_left _ (businesses result) (st0, [])) as [st1 batchToSave] eqn:Hfold.
    destruct (foldBatch_accounted _ _ _ _ _ _ _ Hfold) as (_ & _ & _ & _ & _ & _ & _ & Hp).
    simpl. rewrite Hp. by destruct batchToSave.
  - destruct (JsString.includes "429" msg) eqn:Hq; simpl; [by auto|].
    destruct (JsString.includes "API_KEY_MISSING" msg) eqn:Hk; simpl; [by auto|].
    split_and!; done.
Qed.

Lemma mineLoop_visits w target bairros i st sh :
  let r := mineLoop w target i bairros (st, sh) in
  ∃ (k : nat) (p : list string),
    (k ≤ List.length bairros)%nat
    ∧ (bairros ≠ [] → (1 ≤ k)%nat)
    ∧ searched r.2 = searched sh ++ take k bairros
    ∧ processedBairros r.1 = processedBairros st ++ p
    ∧ p `sublist_of` take k bairros
    ∧ ((k < List.length bairros)%nat →
       ∃ b msg, bairros !! (k - 1) = Some b
                ∧ searchBusinesses w (i + (k - 1)) b = Thrown msg
                ∧ (JsString.includes "429" msg = true
                   ∨ JsString.includes "API_KEY_MISSING" msg = true)).
Proof.
  revert i st sh. induction bairros as [|b bairros IH]; intros i st sh.
  { exists 0, []. simpl. rewrite !app_nil_r. split_and!; try done. lia. }
  cbn [mineLoop].
  pose proof (mineNeighborhood_visit w target i b st sh) as [Hs Hn].
  destruct (mineNeighborhood w target i b (st, sh)) as [[st1 sh1] flow]. simpl in Hs, Hn.
  destruct flow.
  - destruct (IH (S i) st1 sh1) as (k & p & Hk & Hk1 & H1 & H2 & H3 & H4).
    assert (Hp : ∃ q, processedBairros st1 = processedBairros st ++ q ∧ q `sublist_of` [b]).
    { destruct (searchBusinesses w i b).
      - destruct Hn as [_ ->]. by exists [b].
      - destruct Hn as [-> _]. exists []. rewrite app_nil_r. split; [done|].
        apply sublist_nil_l. }
    destruct Hp as (q & Hq & Hqs).
    exists (S k), (q ++ p). simpl. split_and!.
    + lia.
    + lia.
    + by rewrite H1, Hs, <- app_assoc.
    + by rewrite H2, Hq, <- app_assoc.
    + by apply (sublist_app q [b] p (take k bairros)).
    + intros Hlt. destruct H4 as (b' & msg & Hb' & Hm & Hh); [simpl in Hlt; lia|].
      destruct k as [|k].
      { destruct bairros; [simpl in Hlt; lia|]. assert (1 ≤ 0)%nat by by apply Hk1. lia. }
      exists b', msg. simpl in *. rewrite Nat.sub_0_r in *.
      split_and!; [done | | done].
      by replace (i + S k) with (S i + k) by lia.
  - exists 1, []. simpl. rewrite take_0, !app_nil_r.
    destruct (searchBusinesses w i b) as [result|msg] eqn:Hsb.
    { by destruct Hn as [? _]. }
    destruct Hn as [-> Hh]. split_and!; try done.
    + lia.
    + apply sublist_nil_l.
    + intros _. exists b, msg. rewrite Nat.add_0_r. split_and!; [done | done | by apply Hh].
Qed.

(** X7.  A run searches the selected neighbourhoods in their order, the
    first one always; it leaves some unsearched only when the search of the
    last one it tried threw a message with [429] or [API_KEY_MISSING]; the
    neighbourhoods it reports as processed are among those searched. *)
Theorem mining_visits_in_order (w : World) (app : App.t) (r : Run) :
  handleStartMining w app = Some r →
  let selected := App.selectedNeighborhoods app in
  ∃ k : nat,
    (1 ≤ k ≤ List.length selected)%nat
    ∧ searched (runShown r) = take k selected
    ∧ processedBairros (runMining r) `sublist_of` take k selected
    ∧ ((k < List.length selected)%nat →
       ∃ b msg, selected !! (k - 1) = Some b
                ∧ searchBusinesses w (k - 1) b = Thrown msg
                ∧ (JsString.includes "429" msg = true
                   ∨ JsString.includes "API_KEY_MISSING" msg = true)).
Proof.
  unfold handleStartMining.
  destruct (negb (JsString.truthy (App.niche app)) || negb (JsString.truthy (App.city app)))
    eqn:Hform; [done|]. simpl.
  case_bool_decide as Hsel; [done|].
  destruct (resolveTarget w app) as [[[cs c] target] reads].
  set (st0 := mkMining (App.leads app) 0 0 0 0 [] [] reads).
  set (sh0 := mkShown None None (0, 0, 0, 0) [] []).
  destruct (mineLoop_visits w target (App.selectedNeighborhoods app) 0 st0 sh0)
    as (k & p & Hk & Hk1 & H1 & H2 & H3 & H4).
  destruct (mineLoop _ _ _ _ (st0, sh0)) as [st sh]. intros [= <-]. simpl in *.
  exists k. split_and!; [by apply Hk1 | done | done | by rewrite H2 | done].
Qed.

(** ** The merge run on its own result *)

Lemma JsMap_set_all_fresh {V} (entries m : JsMap.t V) :
  NoDup (JsMap.keys (m ++ entries)) → JsMap.set_all entries m = m ++ entries.
Proof.
  revert m. unfold JsMap.set_all.
  induction entries as [|[k v] entries IH]; intros m Hnd; simpl.
  { by rewrite app_nil_r. }
  assert (Hfresh : JsMap.get k m = None).
  { apply JsMap_get_None. unfold JsMap.keys in *. rewrite fmap_app in Hnd.
    apply NoDup_app in Hnd as (_ & Hdis & _). intros Hk.
    apply (Hdis k Hk). simpl. apply elem_of_cons. by left. }
  rewrite (JsMap_set_fresh _ _ _ Hfresh), IH; rewrite <- app_assoc; done.
Qed.

Lemma uniqueLeads_id l : NoDup (leadKey <$> l) → uniqueLeads l = l.
Proof.
  intros Hnd. unfold uniqueLeads, JsMap.of_entries.
  rewrite JsMap_set_all_fresh.
  - unfold JsMap.empty, JsMap.values. simpl. rewrite <- list_fmap_compose.
    by rewrite list_fmap_id.
  - unfold JsMap.empty, JsMap.keys. simpl. by rewrite <- list_fmap_compose.
Qed.

Lemma collapse_distinct l st :
  NoDup (JsMap.keys (nicheMap st) ++ (campaignKey <$> l)) →
  fold_left collapseStep l st
  = mkCollapse (nicheMap st ++ ((fun c => (campaignKey c, c)) <$> l))
               (campaignsToRemove st) (leadRemapping st).
Proof.
  revert st. induction l as [|c l IH]; intros st Hnd; simpl.
  { rewrite app_nil_r. by destruct st. }
  assert (Hfresh : JsMap.get (campaignKey c) (nicheMap st) = None).
  { apply JsMap_get_None. apply NoDup_app in Hnd as (_ & Hdis & _). intros Hk.
    apply (Hdis _ Hk). rewrite fmap_cons. apply elem_of_cons. by left. }
  rewrite (collapseStep_new _ _ Hfresh), IH; simpl.
  - by rewrite <- app_assoc.
  - unfold JsMap.keys in *. rewrite fmap_app, <- app_assoc. done.
Qed.

(** X8.  The merge is idempotent: run again on the campaigns and leads it
    produced, with no remote data, it returns them as they are, asks for no
    deletion and saves nothing. *)
Theorem merge_idempotent
    (localCampaigns : list Campaign.t) (localLeads : list BusinessInfo.t)
    (cData : option (list Campaign.t)) (lData : option (list BusinessInfo.t)) :
  let merged := mergeReplicas localCampaigns localLeads cData lData in
  mergeReplicas (campaigns merged) (leads merged) None None
  = mkMerged (campaigns merged) (leads merged) [] None.
Proof.
  intros merged.
  assert (Hc : NoDup (campaignKey <$> campaigns merged)).
  { unfold merged. rewrite merged_campaigns. apply filed_values_NoDup.
    - apply collapse_filed. constructor.
    - apply collapse_NoDup. constructor. }
  assert (Hl : NoDup (leadKey <$> leads merged)).
  { unfold merged. rewrite merged_leads. apply uniqueLeads_NoDup. }
  unfold mergeReplicas at 1. simpl. unfold collapse.
  rewrite (collapse_distinct _ collapse0) by done. simpl.
  by rewrite uniqueLeads_id.
Qed.

(** ** The union of the two replicas *)

Section Union.
Context {V : Type} (f : V → string).

Lemma JsMap_get_set k k' v (m : JsMap.t V) :
  JsMap.get k (JsMap.set k' v m) = if decide (k' = k) then Some v else JsMap.get k m.
Proof.
  induction m as [|[k0 v0] m IH]; simpl.
  - done.
  - destruct (decide (k0 = k')) as [->|Hne]; simpl.
    + by destruct (decide (k' = k)).
    + rewrite IH. destruct (decide (k0 = k)) as [->|?]; [|done].
      by rewrite decide_False.
Qed.

Lemma JsMap_set_all_snoc (entries : JsMap.t V) e m :
  JsMap.set_all (entries ++ [e]) m = JsMap.set e.1 e.2 (JsMap.set_all entries m).
Proof. unfold JsMap.set_all. by rewrite fold_left_app. Qed.

(** What [get] finds after a run of [set]: a value set in the run when the
    key occurs in it, what was there before otherwise. *)
Lemma JsMap_get_set_all k (entries m : JsMap.t V) :
  (k ∈ entries.*1 → ∃ v, JsMap.get k (JsMap.set_all entries m) = Some v ∧ (k, v) ∈ entries)
  ∧ (k ∉ entries.*1 → JsMap.get k (JsMap.set_all entries m) = JsMap.get k m).
Proof.
  induction entries as [|[k' v'] entries [IH1 IH2]] using rev_ind.
  { split; [by intros ?%elem_of_nil | done]. }
  rewrite JsMap_set_all_snoc, JsMap_get_set, fmap_app. simpl.
  setoid_rewrite elem_of_app. setoid_rewrite list_elem_of_singleton.
  destruct (decide (k' = k)) as [->|Hne].
  - split; [|by intros []; right]. intros _. exists v'. split; [done | by right].
  - split.
    + intros [Hin|?]; [|congruence]. destruct (IH1 Hin) as (v & Hv & Hvin).
      exists v. split; [done | by left].
    + intros Hnot. apply IH2. intros ?. apply Hnot. by left.
Qed.

Lemma union_values (l r : list V) x :
  let u := JsMap.values (JsMap.set_all ((fun x => (f x, x)) <$> r)
                           (JsMap.set_all ((fun x => (f x, x)) <$> l) JsMap.empty)) in
  x ∈ u → (f x ∈ f <$> r → x ∈ r) ∧ (f x ∉ f <$> r → x ∈ l).
Proof.
  intros u Hx.
  set (L := (fun x => (f x, x)) <$> l) in *. set (R := (fun x => (f x, x)) <$> r) in *.
  assert (HR : R.*1 = f <$> r) by (unfold R; by rewrite <- list_fmap_compose).
  assert (HL : L.*1 = f <$> l) by (unfold L; by rewrite <- list_fmap_compose).
  assert (Hget : JsMap.get (f x) (JsMap.set_all R (JsMap.set_all L JsMap.empty)) = Some x).
  { apply JsMap_elem_get.
    - do 2 apply JsMap_NoDup_set_all. constructor.
    - apply filed_values; [|done]. do 2 apply filed_set_all. constructor. }
  assert (Hentry : ∀ (E : list V) v, (f x, v) ∈ (fun x => (f x, x)) <$> E → v ∈ E).
  { intros E v (y & [= _ ->] & Hy)%list_elem_of_fmap. done. }
  destruct (JsMap_get_set_all (f x) R (JsMap.set_all L JsMap.empty)) as [H1 H2].
  rewrite HR in H1, H2. split.
  - intros Hin. destruct (H1 Hin) as (v & Hv & Hvin). rewrite Hget in Hv.
    injection Hv as <-. by apply Hentry.
  - intros Hnot. rewrite (H2 Hnot) in Hget.
    destruct (JsMap_get_set_all (f x) L JsMap.empty) as [H3 H4].
    destruct (decide (f x ∈ L.*1)) as [Hin|Hnin].
    + destruct (H3 Hin) as (v & Hv & Hvin). rewrite Hget in Hv.
      injection Hv as <-. by apply Hentry.
    + by rewrite (H4 Hnin) in Hget.
Qed.

Lemma union_keys (l r : list V) k :
  let u := JsMap.values (JsMap.set_all ((fun x => (f x, x)) <$> r)
                           (JsMap.set_all ((fun x => (f x, x)) <$> l) JsMap.empty)) in
  k ∈ f <$> u ↔ k ∈ f <$> l ∨ k ∈ f <$> r.
Proof.
  intros u.
  set (L := (fun x => (f x, x)) <$> l) in *. set (R := (fun x => (f x, x)) <$> r) in *.
  assert (HR : R.*1 = f <$> r) by (unfold R; by rewrite <- list_fmap_compose).
  assert (HL : L.*1 = f <$> l) by (unfold L; by rewrite <- list_fmap_compose).
  assert (Hf : filed f (JsMap.set_all R (JsMap.set_all L JsMap.empty))).
  { do 2 apply filed_set_all. constructor. }
  unfold u. rewrite <- (filed_keys _ _ Hf).
  rewrite <- HL, <- HR.
  destruct (JsMap_get_set_all k R (JsMap.set_all L JsMap.empty)) as [H1 H2].
  destruct (JsMap_get_set_all k L JsMap.empty) as [H3 H4].
  destruct (decide (k ∈ JsMap.keys (JsMap.set_all R (JsMap.set_all L JsMap.empty))))
    as [Hin|Hnin].
  - split; [|done]. intros _.
    destruct (decide (k ∈ R.*1)); [by right|]. left.
    destruct (decide (k ∈ L.*1)) as [|HnL]; [done|]. exfalso.
    apply (proj1 (JsMap_get_None k _)) in Hin; [done|]. by rewrite H2, H4.
  - split; [done|]. intros [HinL|HinR]; exfalso; apply JsMap_get_None in Hnin.
    + destruct (decide (k ∈ R.*1)) as [HinR|HnR].
      * destruct (H1 HinR) as (v & Hv & _). congruence.
      * rewrite (H2 HnR) in Hnin. destruct (H3 HinL) as (v & Hv & _). congruence.
    + destruct (H1 HinR) as (v & Hv & _). congruence.
Qed.
End Union.

(** X9.  In the union of the replicas the remote copy wins: every id (every
    lead key) of either replica is there exactly once; a record whose id the
    remote replica has is a remote record, any other is a local one. *)
Theorem union_remote_wins
    (localCampaigns cData : list Campaign.t) (localLeads lData : list BusinessInfo.t) :
  let cs := unionCampaigns localCampaigns (Some cData) in
  let ls := unionLeads localLeads (Some lData) in
  NoDup (Campaign.id <$> cs)
  ∧ (∀ i, i ∈ Campaign.id <$> cs ↔
          i ∈ Campaign.id <$> localCampaigns ∨ i ∈ Campaign.id <$> cData)
  ∧ (∀ c, c ∈ cs →
       (Campaign.id c ∈ Campaign.id <$> cData → c ∈ cData)
       ∧ (Campaign.id c ∉ Campaign.id <$> cData → c ∈ localCampaigns))
  ∧ NoDup (leadKey <$> ls)
  ∧ (∀ k, k ∈ leadKey <$> ls ↔ k ∈ leadKey <$> localLeads ∨ k ∈ leadKey <$> lData)
  ∧ (∀ l, l ∈ ls →
       (leadKey l ∈ leadKey <$> lData → l ∈ lData)
       ∧ (leadKey l ∉ leadKey <$> lData → l ∈ localLeads)).
Proof.
  intros cs ls. split_and!.
  - apply unionCampaigns_NoDup.
  - intros i. apply (union_keys Campaign.id).
  - intros c. apply (union_values Campaign.id).
  - unfold ls, unionLeads. apply filed_values_NoDup.
    + do 2 apply filed_set_all. constructor.
    + do 2 apply JsMap_NoDup_set_all. constructor.
  - intros k. apply (union_keys leadKey).
  - intros l. apply (union_values leadKey).
Qed.

(** ** Derived lead ids and the concatenated key *)

Lemma underscores_app a b : underscores (a +:+ b) = underscores a + underscores b.
Proof. induction a as [|c a IH]; simpl; [done|]. rewrite IH. lia. Qed.

Lemma length_app_string a b : String.length (a +:+ b) = String.length a + String.length b.
Proof. induction a as [|c a IH]; simpl; [done|]. by rewrite IH. Qed.

Lemma underscores_none p s :
  (∀ c, p c = true → c ≠ "_"%char) → allChars p s = true → underscores s = 0.
Proof.
  intros Hp. induction s as [|c s IH]; simpl; [done|].
  intros [Hc Hs]%andb_true_iff. rewrite (IH Hs).
  by rewrite bool_decide_eq_false_2 by by apply Hp.
Qed.

Lemma alnum_not_underscore c : alnum c = true → c ≠ "_"%char.
Proof. intros Hc ->. by vm_compute in Hc. Qed.

Lemma digit_not_underscore c : JsString.is_digit c = true → c ≠ "_"%char.
Proof. intros Hc ->. by vm_compute in Hc. Qed.

Lemma allChars_substring0 p n s :
  allChars p s = true → allChars p (JsString.substring0 n s) = true.
Proof.
  revert s. induction n as [|n IH]; intros [|c s]; simpl; try done.
  intros [Hc Hs]%andb_true_iff. by rewrite Hc, IH.
Qed.

Lemma allChars_drop p n s :
  allChars p s = true → allChars p (JsString.drop n s) = true.
Proof.
  revert s. induction n as [|n IH]; intros [|c s]; simpl; try done.
  intros [Hc Hs]%andb_true_iff. by apply IH.
Qed.

Lemma length_substring0 n s : (String.length (JsString.substring0 n s) ≤ n)%nat.
Proof.
  revert s. induction n as [|n IH]; intros [|c s]; simpl; try lia.
  specialize (IH s). lia.
Qed.

Lemma length_drop n s : String.length (JsString.drop n s) = String.length s - n.
Proof. revert s. induction n as [|n IH]; intros [|c s]; simpl; try done; lia. Qed.

Lemma createNormalizedId_underscores name phone neighborhood :
  underscores (createNormalizedId name phone neighborhood) = 2.
Proof.
  unfold createNormalizedId.
  set (n := JsString.substring0 15 _). set (g := JsString.substring0 10 _).
  set (p := JsString.sliceLast 8 _).
  assert (Hn : underscores n = 0).
  { apply (underscores_none alnum _ alnum_not_underscore).
    apply allChars_substring0, allChars_keep. }
  assert (Hg : underscores g = 0).
  { apply (underscores_none alnum _ alnum_not_underscore).
    apply allChars_substring0, allChars_keep. }
  assert (Hp : underscores p = 0).
  { apply (underscores_none JsString.is_digit _ digit_not_underscore).
    apply allChars_drop, allChars_keep. }
  rewrite !underscores_app, Hn, Hg, Hp. done.
Qed.

Lemma append_nil a : "" +:+ a = a.
Proof. reflexivity. Qed.

Lemma append_cons c x a : String c x +:+ a = String c (x +:+ a).
Proof. reflexivity. Qed.

(** Two keys that agree split at the same separator when the ids have the
    same number of separators of their own. *)
Lemma key_split x y a b :
  underscores x = underscores y →
  x +:+ "_" +:+ a = y +:+ "_" +:+ b → x = y ∧ a = b.
Proof.
  revert y. induction x as [|c x IH]; intros [|d y] Hu Hk; simpl in Hu;
    rewrite ?append_cons, ?append_nil in Hk.
  - by injection Hk as ->.
  - injection Hk as <- _. rewrite bool_decide_eq_true_2 in Hu by done. lia.
  - injection Hk as -> _. rewrite bool_decide_eq_true_2 in Hu by done. lia.
  - injection Hk as -> Heq. destruct (IH y) as [-> ->]; [lia | done | done].
Qed.

(** X10.  An id made by [createNormalizedId] has exactly two separators and
    at most 35 characters; for leads with such ids the key
    [id + "_" + campaignId] determines the id and the campaign id as
    rendered, so two of them whose campaign ids are strings and which have
    the same key are the same pair. *)
Theorem derived_key_injective (l1 l2 : BusinessInfo.t)
    (name1 phone1 neighborhood1 name2 phone2 neighborhood2 : string) :
  BusinessInfo.id l1 = createNormalizedId name1 phone1 neighborhood1 →
  BusinessInfo.id l2 = createNormalizedId name2 phone2 neighborhood2 →
  underscores (BusinessInfo.id l1) = 2
  ∧ (String.length (BusinessInfo.id l1) ≤ 35)%nat
  ∧ (leadKey l1 = leadKey l2 →
     BusinessInfo.id l1 = BusinessInfo.id l2
     ∧ campaignIdText l1 = campaignIdText l2
     ∧ (∀ c1 c2,
          BusinessInfo.campaignId l1 = Some (Str c1) →
          BusinessInfo.campaignId l2 = Some (Str c2) →
          BusinessInfo.campaignId l1 = BusinessInfo.campaignId l2)).
Proof.
  intros H1 H2.
  assert (Hu1 : underscores (BusinessInfo.id l1) = 2)
    by (rewrite H1; apply createNormalizedId_underscores).
  assert (Hu2 : underscores (BusinessInfo.id l2) = 2)
    by (rewrite H2; apply createNormalizedId_underscores).
  split_and!; [done | |].
  - rewrite H1. unfold createNormalizedId, JsString.sliceLast.
    set (n := JsString.substring0 15 _). set (g := JsString.substring0 10 _).
    set (d := JsString.keep JsString.is_digit phone1).
    pose proof (length_substring0 15
      (JsString.keep alnum (JsString.toLowerCase engine name1))) as Hn.
    pose proof (length_substring0 10
      (JsString.keep alnum (JsString.toLowerCase engine neighborhood1))) as Hg.
    fold n in Hn. fold g in Hg.
    rewrite !length_app_string, length_drop.
    change (String.length "_") with 1. lia.
  - unfold leadKey. intros Hk.
    destruct (key_split _ _ _ _ (eq_trans Hu1 (eq_sym Hu2)) Hk) as [Hid Hc].
    split_and!; [done | done |].
    intros c1 c2 Hc1 Hc2. unfold campaignIdText in Hc.
    rewrite Hc1, Hc2 in *. simpl in Hc. by rewrite Hc.
Qed.

(** ** Folder deletion *)

Lemma List_filter_elem {A} (p : A → bool) (l : list A) x :
  x ∈ List.filter p l ↔ x ∈ l ∧ p x = true.
Proof. rewrite !list_elem_of_In. apply filter_In. Qed.

Lemma inCampaigns_spec ids l :
  inCampaigns ids l = true ↔ ∃ r, r ∈ ids ∧ BusinessInfo.campaignId l = Some (Str r).
Proof.
  unfold inCampaigns. destruct (BusinessInfo.campaignId l) as [[cid|name]|].
  - rewrite bool_decide_eq_true. split; [by exists cid | by intros (r & ? & [= ->])].
  - split; [done | by intros (? & _ & ?)].
  - split; [done | by intros (? & _ & ?)].
Qed.

(** X11.  Deleting a folder, once confirmed: every campaign with the
    normalized niche of the chosen one goes, and with it every lead that
    refers to one of the deleted ids; campaigns with other ids and leads of
    other campaigns (or of none) stay; the active campaign is cleared when it
    was deleted.  An unknown campaign id or a declined confirmation changes
    nothing. *)
Theorem folder_deletion (campaignId : string) (campaigns : list Campaign.t)
    (leads : list BusinessInfo.t) (activeCampaignId : option string) :
  let d := handleDeleteCampaign campaignId true campaigns leads activeCampaignId in
  (campaignId ∉ Campaign.id <$> campaigns →
     d = mkDeleted campaigns leads activeCampaignId [])
  ∧ handleDeleteCampaign campaignId false campaigns leads activeCampaignId
    = mkDeleted campaigns leads activeCampaignId []
  ∧ (∀ i campaign,
       list_find (fun c => Campaign.id c = campaignId) campaigns = Some (i, campaign) →
       campaignId ∈ idsToDelete d
       ∧ (∀ c, c ∈ keptCampaigns d ↔
               c ∈ campaigns ∧ Campaign.id c ∉ idsToDelete d)
       ∧ (∀ c, c ∈ keptCampaigns d → campaignKey c ≠ campaignKey campaign)
       ∧ (∀ l, l ∈ keptFolderLeads d ↔
               l ∈ leads ∧ ∀ r, r ∈ idsToDelete d → BusinessInfo.campaignId l ≠ Some (Str r))
       ∧ (∀ a, activeCampaignId = Some a → a ≠ "" → a ∈ idsToDelete d →
               activeAfter d = None)
       ∧ (∀ a, activeCampaignId = Some a → a ∉ idsToDelete d →
               activeAfter d = Some a)).
Proof.
  intros d. split_and!.
  - intros Hnot. unfold d, handleDeleteCampaign.
    destruct (list_find _ campaigns) as [[i c]|] eqn:Hf; [|done].
    apply list_find_Some in Hf as (Hi & Hid & _). destruct Hnot.
    apply list_elem_of_fmap. exists c. split; [done | by eapply list_elem_of_lookup_2].
  - unfold handleDeleteCampaign. by destruct (list_find _ campaigns) as [[i c]|].
  - intros i campaign Hf. unfold d, handleDeleteCampaign. rewrite Hf. simpl.
    set (ids := Campaign.id <$> List.filter _ campaigns).
    assert (Hids : ∀ c, c ∈ campaigns → campaignKey c = campaignKey campaign →
                        Campaign.id c ∈ ids).
    { intros c Hc Hk. apply list_elem_of_fmap. exists c. split; [done|].
      apply List_filter_elem. split; [done|]. by apply bool_decide_eq_true. }
    apply list_find_Some in Hf as (Hi & Hid & _).
    apply list_elem_of_lookup_2 in Hi.
    split_and!.
    + rewrite <- Hid. by apply Hids.
    + intros c. rewrite List_filter_elem, negb_true_iff, bool_decide_eq_false. done.
    + intros c [Hc Hn]%List_filter_elem Hk.
      apply negb_true_iff, bool_decide_eq_false in Hn. by apply Hn, Hids.
    + intros l. rewrite List_filter_elem, negb_true_iff.
      rewrite <- not_true_iff_false, inCampaigns_spec. split.
      * intros [Hl Hn]. split; [done|]. intros r Hr Hc. apply Hn. by exists r.
      * intros [Hl Hn]. split; [done|]. intros (r & Hr & Hc). by apply (Hn r).
    + intros a -> Ha Hin. unfold JsString.truthy.
      by rewrite (bool_decide_eq_false_2 _ Ha), (bool_decide_eq_true_2 _ Hin).
    + intros a -> Hnot. rewrite (bool_decide_eq_false_2 _ Hnot). by rewrite andb_false_r.
Qed.

(** ** The duplicate cleanup as a whole *)

Lemma scan_step_dec pre l :
  (is_Some (phoneMap (scan pre) !! phoneKey l) →
     dupesFound (scan (pre ++ [l])) = dupesFound (scan pre) ++ [l]
     ∧ keptLeads (scan (pre ++ [l])) = keptLeads (scan pre))
  ∧ (¬ is_Some (phoneMap (scan pre) !! phoneKey l) →
     dupesFound (scan (pre ++ [l])) = dupesFound (scan pre)
     ∧ keptLeads (scan (pre ++ [l])) = keptLeads (scan pre) ++ [l]).
Proof. rewrite scan_seen. apply scan_step. Qed.

(** The scan splits the list into the leads kept and the leads flagged. *)
Lemma scan_partition l : keptLeads (scan l) ++ dupesFound (scan l) ≡ₚ l.
Proof.
  induction l as [|x l IH] using rev_ind; [done|].
  destruct (scan_step_dec l x) as [Hyes Hno].
  destruct (decide (is_Some (phoneMap (scan l) !! phoneKey x))) as [Hs|Hs].
  - destruct (Hyes Hs) as [-> ->]. by rewrite app_assoc, IH.
  - destruct (Hno Hs) as [-> ->]. rewrite <- IH at 3.
    rewrite <- !app_assoc. f_equiv. apply Permutation_app_comm.
Qed.

Lemma scan_kept_elem l k : k ∈ keptLeads (scan l) → k ∈ l.
Proof. intros Hk. rewrite <- (scan_partition l). apply elem_of_app. by left. Qed.

(** The leads kept have pairwise distinct non-empty phones. *)
Lemma scan_kept_distinct l : phonesDistinct (keptLeads (scan l)).
Proof.
  induction l as [|x l IH] using rev_ind; [apply NoDup_nil_2|].
  destruct (scan_step_dec l x) as [Hyes Hno].
  destruct (decide (is_Some (phoneMap (scan l) !! phoneKey x))) as [Hs|Hs].
  - by destruct (Hyes Hs) as [_ ->].
  - destruct (Hno Hs) as [_ ->]. apply phonesDistinct_snoc. split; [done|].
    intros Hne l' Hl' Heq. apply Hs. apply scan_seen. split; [done|].
    exists l'. split; [by apply scan_kept_elem | done].
Qed.

(** A filter that drops every flagged lead sees only kept leads. *)
Lemma scan_filter_kept (p : BusinessInfo.t → bool) l :
  (∀ d, d ∈ dupesFound (scan l) → p d = false) →
  List.filter p l = List.filter p (keptLeads (scan l)).
Proof.
  induction l as [|x l IH] using rev_ind; [done|].
  destruct (scan_step_dec l x) as [Hyes Hno]. intros Hp.
  rewrite List.filter_app.
  destruct (decide (is_Some (phoneMap (scan l) !! phoneKey x))) as [Hs|Hs].
  - destruct (Hyes Hs) as [Hd Hk]. rewrite Hd in Hp. rewrite Hk.
    simpl. rewrite (Hp x) by (apply elem_of_app; right; by apply list_elem_of_singleton).
    rewrite app_nil_r. apply IH. intros d Hdd. apply Hp. apply elem_of_app. by left.
  - destruct (Hno Hs) as [Hd Hk]. rewrite Hd in Hp. rewrite Hk.
    rewrite List.filter_app. f_equal. by apply IH.
Qed.

Lemma List_filter_comm {A} (p q : A → bool) l :
  List.filter p (List.filter q l) = List.filter q (List.filter p l).
Proof.
  induction l as [|x l IH]; simpl; [done|].
  destruct (p x) eqn:Hp, (q x) eqn:Hq; simpl; rewrite ?Hp, ?Hq, ?IH; done.
Qed.

Lemma List_filter_perm {A} (p : A → bool) l l' :
  l ≡ₚ l' → List.filter p l ≡ₚ List.filter p l'.
Proof.
  induction 1 as [|x l l' _ IH|x y l|l l' l'' _ IH1 _ IH2]; simpl.
  - done.
  - destruct (p x); by rewrite IH.
  - destruct (p x), (p y); try done. apply Permutation_swap.
  - by rewrite IH1.
Qed.

Lemma targetLeads_filter active campaigns (p : BusinessInfo.t → bool) leads :
  targetLeads active campaigns (List.filter p leads)
  = List.filter p (targetLeads active campaigns leads).
Proof.
  unfold targetLeads. destruct active as [a|]; [|done].
  destruct (JsString.truthy a); [apply List_filter_comm | done].
Qed.

(** X12.  The cleanup is complete: after a confirmed cleanup the scope has
    no two leads with the same non-empty normalized phone, so a second
    cleanup finds no duplicate and removes nothing. *)
Theorem cleanup_idempotent (activeCampaignId : option string)
    (campaigns : list Campaign.t) (leads : list BusinessInfo.t) :
  let after := handleCleanDuplicates activeCampaignId campaigns leads in
  after `sublist_of` leads
  ∧ phonesDistinct (targetLeads activeCampaignId campaigns after)
  ∧ findPhoneDuplicates (targetLeads activeCampaignId campaigns after) = []
  ∧ handleCleanDuplicates activeCampaignId campaigns after = after.
Proof.
  intros after.
  assert (Hsub : after `sublist_of` leads).
  { unfold after, handleCleanDuplicates.
    destruct (findPhoneDuplicates _); [done | apply List_filter_sublist]. }
  assert (Hd : phonesDistinct (targetLeads activeCampaignId campaigns after)).
  { unfold after, handleCleanDuplicates, findPhoneDuplicates.
    set (scope := targetLeads activeCampaignId campaigns leads).
    set (sorted := sort byLastSeenDesc scope).
    pose proof (scan_partition sorted) as Hpart.
    pose proof (scan_kept_distinct sorted) as Hkept.
    pose proof (sort_perm byLastSeenDesc scope) as Hperm. fold sorted in Hperm.
    destruct (dupesFound (scan sorted)) as [|d ds] eqn:Hdup.
    - fold scope. rewrite app_nil_r in Hpart.
      eapply phonesDistinct_perm; [|exact Hkept]. by rewrite Hpart.
    - set (keep := fun l => negb (bool_decide (leadKey l ∈ leadKey <$> d :: ds))).
      rewrite targetLeads_filter. fold scope.
      eapply phonesDistinct_perm.
      { apply List_filter_perm. exact Hperm. }
      rewrite (scan_filter_kept keep sorted).
      + eapply phonesDistinct_sublist; [apply List_filter_sublist | done].
      + intros x Hx. rewrite Hdup in Hx. unfold keep.
        apply negb_false_iff, bool_decide_eq_true.
        apply list_elem_of_fmap. by exists x. }
  assert (Hn : findPhoneDuplicates (targetLeads activeCampaignId campaigns after) = [])
    by by apply findPhoneDuplicates_nothing.
  split_and!; [done | done | done |].
  unfold handleCleanDuplicates at 1. by rewrite Hn.
Qed.

(** Every non-empty phone in the list scanned is the phone of a lead kept. *)
Lemma scan_keeps_phone sorted l :
  l ∈ sorted → phoneKey l ≠ "" →
  ∃ k, k ∈ keptLeads (scan sorted) ∧ phoneKey k = phoneKey l.
Proof.
  revert l. induction sorted as [|x sorted IH] using rev_ind;
    [by intros ? ?%elem_of_nil|].
  destruct (scan_step_dec sorted x) as [Hyes Hno]. intros l Hin Hne.
  destruct (decide (is_Some (phoneMap (scan sorted) !! phoneKey x))) as [Hs|Hs].
  - destruct (Hyes Hs) as [_ ->].
    apply elem_of_app in Hin as [Hin | ->%list_elem_of_singleton]; [by apply IH|].
    apply scan_seen in Hs as (_ & l' & Hl' & Heq).
    destruct (IH l' Hl') as (k & Hk & Hkp); [congruence|].
    exists k. split; [done | congruence].
  - destruct (Hno Hs) as [_ ->].
    apply elem_of_app in Hin as [Hin | ->%list_elem_of_singleton].
    + destruct (IH l Hin Hne) as (k & Hk & Hkp). exists k.
      split; [apply elem_of_app; by left | done].
    + exists x. split; [|done]. apply elem_of_app. right. by apply list_elem_of_singleton.
Qed.

(** X13.  The cleanup loses no phone number when the leads have pairwise
    distinct keys [id + "_" + campaignId] (as after the merge): for every
    lead in scope with a non-empty phone, a lead in scope with the same
    normalized phone is still there afterwards. *)
Theorem cleanup_keeps_every_phone (activeCampaignId : option string)
    (campaigns : list Campaign.t) (leads : list BusinessInfo.t) :
  NoDup (leadKey <$> leads) →
  ∀ l, l ∈ targetLeads activeCampaignId campaigns leads → phoneKey l ≠ "" →
    ∃ k, k ∈ handleCleanDuplicates activeCampaignId campaigns leads
         ∧ k ∈ targetLeads activeCampaignId campaigns leads
         ∧ phoneKey k = phoneKey l.
Proof.
  intros Hnd l Hl Hne. unfold handleCleanDuplicates, findPhoneDuplicates.
  set (scope := targetLeads activeCampaignId campaigns leads) in *.
  set (sorted := sort byLastSeenDesc scope).
  pose proof (scan_partition sorted) as Hpart.
  pose proof (sort_perm byLastSeenDesc scope) as Hperm. fold sorted in Hperm.
  assert (Hscope : scope `sublist_of` leads) by apply targetLeads_sublist.
  destruct (dupesFound (scan sorted)) as [|d ds] eqn:Hdup.
  { exists l. split_and!; [|done|done]. by eapply elem_of_sublist. }
  destruct (scan_keeps_phone sorted l) as (k & Hk & Hkp); [by rewrite Hperm | done |].
  assert (Hks : k ∈ scope) by (rewrite <- Hperm; by apply scan_kept_elem).
  exists k. split_and!; [|done|done].
  apply List_filter_elem. split; [by eapply elem_of_sublist|].
  apply negb_true_iff, bool_decide_eq_false. intros Hkd.
  assert (Hnd' : NoDup (leadKey <$> (keptLeads (scan sorted) ++ d :: ds))).
  { rewrite Hpart, Hperm. eapply sublist_NoDup; [exact Hnd|]. by apply fmap_sublist. }
  rewrite fmap_app in Hnd'. apply NoDup_app in Hnd' as (_ & Hdis & _).
  apply (Hdis (leadKey k)); [|done]. apply list_elem_of_fmap. by exists k.
Qed.

(** ** The leads view and the cleanup scope *)

Lemma List_filter_none {A} (p : A → bool) l :
  (∀ x, x ∈ l → p x = false) → List.filter p l = [].
Proof.
  induction l as [|x l IH]; simpl; [done|]. intros Hp.
  rewrite (Hp x) by (apply elem_of_cons; by left).
  apply IH. intros y Hy. apply Hp. apply elem_of_cons. by right.
Qed.

Lemma List_filter_all {A} (p : A → bool) l :
  (∀ x, x ∈ l → p x = true) → List.filter p l = l.
Proof.
  induction l as [|x l IH]; simpl; [done|]. intros Hp.
  rewrite (Hp x) by (apply elem_of_cons; by left).
  f_equal. apply IH. intros y Hy. apply Hp. apply elem_of_cons. by right.
Qed.

Lemma includes_empty s : JsString.includes "" s = true.
Proof. by destruct s. Qed.

(** X14.  The leads view lists leads of the lead list, in their order.  For
    an active campaign that exists and has a niche, the view without status
    filter and search text is exactly the scope of the duplicate cleanup.
    For an active campaign id that no campaign has, the view lists every
    lead while the cleanup scope is empty.  A search text without letters or
    digits filters nothing. *)
Theorem view_and_cleanup_scope (leads : list BusinessInfo.t)
    (campaigns : list Campaign.t) :
  (∀ active statusFilter query,
     filteredLeads leads campaigns active statusFilter query `sublist_of` leads)
  ∧ (∀ a i c,
       a ≠ "" → list_find (fun c => Campaign.id c = a) campaigns = Some (i, c) →
       Campaign.niche c ≠ "" →
       filteredLeads leads campaigns (Some a) "all" ""
       = targetLeads (Some a) campaigns leads)
  ∧ (∀ a,
       a ≠ "" → a ∉ Campaign.id <$> campaigns →
       filteredLeads leads campaigns (Some a) "all" "" = leads
       ∧ targetLeads (Some a) campaigns leads = [])
  ∧ (∀ active statusFilter query,
       normalize query = "" →
       filteredLeads leads campaigns active statusFilter query
       = filteredLeads leads campaigns active statusFilter "").
Proof.
  split_and!.
  - intros active sf q. unfold filteredLeads.
    set (r1 := match active with Some _ => _ | None => _ end).
    assert (H1 : r1 `sublist_of` leads).
    { unfold r1. destruct active as [a|]; [|done].
      destruct (JsString.truthy a); [|done].
      destruct (list_find _ campaigns) as [[i c]|]; [|done].
      destruct (JsString.truthy (Campaign.niche c)); [apply List_filter_sublist | done]. }
    set (r2 := if bool_decide (sf = "all") then r1 else _).
    assert (H2 : r2 `sublist_of` leads).
    { unfold r2. destruct (bool_decide (sf = "all")); [done|].
      etrans; [apply List_filter_sublist | done]. }
    destruct (JsString.truthy q); [|done].
    etrans; [apply List_filter_sublist | done].
  - intros a i c Ha Hf Hn. unfold filteredLeads, targetLeads, JsString.truthy.
    rewrite (bool_decide_eq_false_2 _ Ha), Hf, (bool_decide_eq_false_2 _ Hn). simpl.
    apply filter_ext. intros l. unfold inFolder, inCampaigns, JsString.truthy.
    by rewrite Hf, (bool_decide_eq_false_2 _ Hn).
  - intros a Ha Hnot.
    assert (Hf : list_find (fun c => Campaign.id c = a) campaigns = None).
    { apply list_find_None, Forall_forall. intros c Hc Hid. apply Hnot.
      apply list_elem_of_fmap. by exists c. }
    unfold filteredLeads, targetLeads, JsString.truthy.
    rewrite (bool_decide_eq_false_2 _ Ha), Hf. simpl. split; [done|].
    apply List_filter_none. intros l _. unfold inFolder. by rewrite Hf.
  - intros active sf q Hq. unfold filteredLeads. rewrite Hq.
    destruct (JsString.truthy q); [|done]. simpl.
    apply List_filter_all. intros l _. apply includes_empty.
Qed.

(** ** Retrying *)

Lemma retryFrom_spec {A} (fn : nat → Attempt A) k :
  ∀ remaining i lastError delays,
    (∀ j, j < k → ∃ err, fn (i + j) = Throws err ∧ isQuota err = true) →
    (k < remaining →
     (∀ err, fn (i + k) = Throws err → isQuota err = false) →
     retryFrom fn remaining i lastError delays
     = (settle (fn (i + k)),
        delays ++ ((fun j => (5000 * (Z.of_nat j + 1))%Z) <$> seq i k)))
    ∧ (k = remaining → 0 < k →
       ∀ err, fn (i + (k - 1)) = Throws err →
       retryFrom fn remaining i lastError delays
       = (Rejects (Some err),
          delays ++ ((fun j => (5000 * (Z.of_nat j + 1))%Z) <$> seq i k))).
Proof.
  induction k as [|k IH]; intros remaining i lastError delays Hq.
  - split; [|lia]. intros Hlt Hnq. destruct remaining as [|remaining]; [lia|].
    simpl. rewrite Nat.add_0_r in *. rewrite app_nil_r.
    destruct (fn i) as [a|err] eqn:Hfn; [done|]. by rewrite (Hnq err).
  - destruct (Hq 0) as (e0 & He0 & Hq0); [lia|]. rewrite Nat.add_0_r in He0.
    assert (Hq' : ∀ j, j < k → ∃ err, fn (S i + j) = Throws err ∧ isQuota err = true).
    { intros j Hj. destruct (Hq (S j)) as (e & He & Hqe); [lia|].
      exists e. split; [|done]. by replace (S i + j) with (i + S j) by lia. }
    split.
    + intros Hlt Hnq. destruct remaining as [|remaining]; [lia|].
      cbn [retryFrom]. rewrite He0, Hq0.
      destruct (IH remaining (S i) (Some e0)
                  (delays ++ [(5000 * (Z.of_nat i + 1))%Z]) Hq') as [IH1 _].
      rewrite IH1.
      * replace (S i + k) with (i + S k) by lia. by rewrite <- app_assoc.
      * lia.
      * intros err. replace (S i + k) with (i + S k) by lia. apply Hnq.
    + intros <- _ err Herr. cbn [retryFrom]. rewrite He0, Hq0.
      destruct k as [|k].
      * cbn [retryFrom]. replace (i + (1 - 1)) with i in Herr by lia.
        rewrite He0 in Herr. by injection Herr as ->.
      * destruct (IH (S k) (S i) (Some e0)
                    (delays ++ [(5000 * (Z.of_nat i + 1))%Z]) Hq') as [_ IH2].
        rewrite (IH2 eq_refl ltac:(lia) err).
        -- by rewrite <- app_assoc.
        -- rewrite <- Herr. f_equal. lia.
Qed.

(** X15.  [withRetry] calls the function again only after an error that
    carries 429, each time after a longer wait (5 s, 10 s, ...), and at most
    [maxRetries] times in all: after [k] such errors in a row a call that
    returns or throws anything else settles the promise with no further
    wait; [maxRetries] such errors in a row reject with the last of them,
    after the last wait; with [maxRetries] zero the function is never called
    and the promise rejects with no error at all. *)
Theorem withRetry_spec {A : Type} (fn : nat → Attempt A) (maxRetries k : nat) :
  (∀ j, j < k → ∃ err, fn j = Throws err ∧ isQuota err = true) →
  (k < maxRetries →
   (∀ err, fn k = Throws err → isQuota err = false) →
   withRetry fn maxRetries = (settle (fn k), retryDelays k))
  ∧ (k = maxRetries → 0 < k →
     ∀ err, fn (k - 1) = Throws err →
     withRetry fn maxRetries = (Rejects (Some err), retryDelays k))
  ∧ withRetry fn 0 = (Rejects None, []).
Proof.
  intros Hq. destruct (retryFrom_spec fn k maxRetries 0 None [] Hq) as [H1 H2].
  split_and!; [exact H1 | exact H2 | done].
Qed.

(** ** Phones on the way in and on the way out *)

Lemma startsWith_append a b c :
  JsString.startsWith (a +:+ b) (a +:+ c) = JsString.startsWith b c.
Proof.
  induction a as [|x a IH]; [done|].
  rewrite !append_cons. cbn [JsString.startsWith].
  by rewrite bool_decide_eq_true_2, IH.
Qed.

Lemma startsWith_self a c : JsString.startsWith a (a +:+ c) = true.
Proof.
  induction a as [|x a IH]; [by destruct c|].
  rewrite append_cons. cbn [JsString.startsWith].
  by rewrite bool_decide_eq_true_2, IH.
Qed.

(** X16.  The phone of a vCard always starts with [+55] and has only digits
    after the [+]; the country code is never doubled: formatting a formatted
    phone gives it back. *)
Theorem vcfPhone_never_doubles_prefix (phone : string) :
  JsString.startsWith "+55" (vcfPhone phone) = true
  ∧ allChars JsString.is_digit (JsString.drop 1 (vcfPhone phone)) = true
  ∧ vcfPhone (vcfPhone phone) = vcfPhone phone.
Proof.
  unfold vcfPhone.
  set (d := JsString.keep JsString.is_digit phone).
  assert (Hd : allChars JsString.is_digit d = true) by apply allChars_keep.
  destruct (JsString.startsWith "55" d) eqn:Hs.
  - split_and!.
    + change "+55" with ("+" +:+ "55"). by rewrite startsWith_append.
    + done.
    + change (JsString.keep JsString.is_digit ("+" +:+ d))
        with (JsString.keep JsString.is_digit d).
      by rewrite (keep_all _ _ Hd), Hs.
  - split_and!.
    + apply startsWith_self.
    + change (JsString.drop 1 ("+55" +:+ d)) with (String "5" (String "5" d)).
      simpl. done.
    + change (JsString.keep JsString.is_digit ("+55" +:+ d))
        with (String "5" (String "5" (JsString.keep JsString.is_digit d))).
      rewrite (keep_all _ _ Hd).
      change (String "5" (String "5" d)) with ("55" +:+ d).
      by rewrite startsWith_self.
Qed.

Lemma allChars_substring p n m s :
  allChars p s = true → allChars p (String.substring n m s) = true.
Proof.
  revert n m. induction s as [|c s IH]; intros [|n] [|m]; simpl; try done.
  - intros [Hc Hs]%andb_true_iff. by rewrite Hc, IH.
  - intros [Hc Hs]%andb_true_iff. by apply IH.
  - intros [Hc Hs]%andb_true_iff. by apply IH.
Qed.

Lemma length_substring_exact n m s :
  (n + m ≤ String.length s)%nat → String.length (String.substring n m s) = m.
Proof.
  revert n m. induction s as [|c s IH]; intros [|n] [|m]; simpl; try done; try lia.
  - intros H. rewrite IH; [done | lia].
  - intros H. apply IH. lia.
  - intros H. apply IH. lia.
Qed.

Lemma extractPhone_shape rawPhoneLine :
  let rawPhone := extractPhone rawPhoneLine in
  allChars JsString.is_digit rawPhone = true
  ∧ (rawPhone = "" ∨ String.length rawPhone = 10 ∨ String.length rawPhone = 11)
  ∧ ((String.length (JsString.keep JsString.is_digit rawPhoneLine) < 10)%nat ↔
     rawPhone = "").
Proof.
  unfold extractPhone.
  set (d := JsString.keep JsString.is_digit rawPhoneLine).
  assert (Hd : allChars JsString.is_digit d = true) by apply allChars_keep.
  destruct (JsString.startsWith "55" d && (12 <=? String.length d)%nat) eqn:H55.
  - apply andb_true_iff in H55 as [_ Hn%Nat.leb_le].
    assert (Hlen : String.length
               (String.substring 2 (Nat.min 11 (String.length d - 2)) d)
             = Nat.min 11 (String.length d - 2)).
    { apply length_substring_exact. lia. }
    split_and!; [by apply allChars_substring | right; lia |].
    split; [lia|]. intros He. rewrite He in Hlen.
      change (String.length "") with 0 in Hlen. lia.
  - destruct (10 <=? String.length d)%nat eqn:H10.
    + apply Nat.leb_le in H10.
      assert (Hlen : String.length (String.substring 0 (Nat.min 11 (String.length d)) d)
               = Nat.min 11 (String.length d)).
      { apply length_substring_exact. lia. }
      split_and!; [by apply allChars_substring | right; lia |].
      split; [lia|]. intros He. rewrite He in Hlen.
      change (String.length "") with 0 in Hlen. lia.
    + apply Nat.leb_gt in H10. split_and!; [done | by left |]. split; [done | lia].
Qed.

Lemma with_country_code x :
  JsString.startsWith "55" (if JsString.startsWith "55" x then x else "55" +:+ x) = true.
Proof.
  destruct (JsString.startsWith "55" x) eqn:Hs; [exact Hs | apply startsWith_self].
Qed.

(** X17.  A business is recorded for every block with a non-empty name, and
    only for those.  Its phone is empty (fewer than ten digits were given)
    or has ten or eleven digits; it is stored as new, outside any campaign,
    as mobile only with an eleven-digit phone and as landline otherwise; its
    id is derived from its name, phone and neighbourhood; its WhatsApp link
    has the country code 55. *)
Theorem business_record_shape (name : option string) (rawPhoneLine : string)
    (instagram website : option string) (neighborhood : string) :
  (is_Some (businessOfBlock name rawPhoneLine instagram website neighborhood)
   ↔ ∃ nm, name = Some nm ∧ nm ≠ "")
  ∧ ∀ b, businessOfBlock name rawPhoneLine instagram website neighborhood = Some b →
      let phone := BusinessInfo.phone b in
      name = Some (BusinessInfo.name b)
      ∧ allChars JsString.is_digit phone = true
      ∧ (phone = "" ∨ String.length phone = 10 ∨ String.length phone = 11)
      ∧ ((String.length (JsString.keep JsString.is_digit rawPhoneLine) < 10)%nat ↔
         phone = "")
      ∧ BusinessInfo.id b = createNormalizedId (BusinessInfo.name b) phone neighborhood
      ∧ BusinessInfo.status b = new
      ∧ BusinessInfo.campaignId b = None
      ∧ (BusinessInfo.type b = mobile → String.length phone = 11)
      ∧ BusinessInfo.type b ≠ unknown
      ∧ JsString.startsWith "https://wa.me/55" (BusinessInfo.whatsappUrl b) = true.
Proof.
  unfold businessOfBlock. split.
  - destruct name as [nm|]; [|split; [by intros [? ?] | by intros (? & ? & _)]].
    unfold JsString.truthy. case_bool_decide as Hnm; simpl.
    + split; [by intros [? ?] | intros (? & [= <-] & ?); done].
    + split; [by exists nm | by eexists].
  - intros b. destruct name as [nm|]; [|done].
    destruct (JsString.truthy nm); [|done]. intros [= <-]. cbv zeta.
    cbn [BusinessInfo.phone BusinessInfo.name BusinessInfo.id BusinessInfo.status
         BusinessInfo.campaignId BusinessInfo.type BusinessInfo.whatsappUrl].
    destruct (extractPhone_shape rawPhoneLine) as (Hd & Hlen & Hempty).
    split_and!; try done.
    + unfold isMobile. destruct (Nat.eqb_spec (String.length (extractPhone rawPhoneLine)) 11);
        simpl; [done | discriminate].
    + by destruct (isMobile _).
    + change "https://wa.me/55" with ("https://wa.me/" +:+ "55").
      rewrite startsWith_append.
      apply with_country_code.
Qed.

(** ** Where the remap sends a lead *)

(** Every campaign gone through the pass has the first campaign of its key
    in the folder map, and is that campaign or is remapped to its id. *)
Lemma collapse_folder l st seen :
  NoDup (Campaign.id <$> (seen ++ l)) →
  Forall (fun c => Campaign.id c ≠ "__proto__") l →
  (∀ c, c ∈ seen →
     ∃ o, JsMap.get (campaignKey c) (nicheMap st) = Some o
          ∧ (c = o ∨ leadRemapping st !! Campaign.id c = Some (Campaign.id o))) →
  ∀ c, c ∈ seen ++ l →
    ∃ o, JsMap.get (campaignKey c) (nicheMap (fold_left collapseStep l st)) = Some o
         ∧ (c = o ∨ leadRemapping (fold_left collapseStep l st) !! Campaign.id c
                    = Some (Campaign.id o)).
Proof.
  revert st seen. induction l as [|c' l IH]; intros st seen Hnd Hproto Hseen; simpl.
  { intros c. rewrite app_nil_r. apply Hseen. }
  apply Forall_cons in Hproto as [Hc'p Hproto].
  intros c Hc. apply (IH (collapseStep st c') (seen ++ [c'])).
  - by rewrite <- app_assoc.
  - done.
  - clear c Hc. intros c [Hc | ->%list_elem_of_singleton]%elem_of_app.
    + destruct (Hseen c Hc) as (o & Ho & Hor).
      assert (Hid : Campaign.id c' ≠ Campaign.id c).
      { rewrite fmap_app, fmap_cons in Hnd. apply NoDup_app in Hnd as (_ & Hdis & _).
        intros Heq. apply (Hdis (Campaign.id c)).
        - apply list_elem_of_fmap. by exists c.
        - rewrite <- Heq. apply elem_of_cons. by left. }
      destruct (JsMap.get (campaignKey c') (nicheMap st)) as [o'|] eqn:Hc'.
      * rewrite (collapseStep_kept _ _ _ Hc'). simpl. exists o. split; [done|].
        destruct Hor as [?|?]; [by left | right]. unfold JsObject.set.
        rewrite decide_False by done. by rewrite lookup_insert_ne.
      * rewrite (collapseStep_new _ _ Hc'). simpl. exists o. split; [|done].
        by rewrite JsMap_get_app, Ho.
    + destruct (JsMap.get (campaignKey c') (nicheMap st)) as [o'|] eqn:Hc'.
      * rewrite (collapseStep_kept _ _ _ Hc'). simpl. exists o'. split; [done|].
        right. unfold JsObject.set. rewrite decide_False by done.
        by rewrite lookup_insert_eq.
      * rewrite (collapseStep_new _ _ Hc'). simpl. exists c'. split; [|by left].
        rewrite JsMap_get_app, Hc'. simpl. by rewrite decide_True.
  - by rewrite <- app_assoc.
Qed.

(** X18.  When the campaigns that enter the collapse have pairwise distinct,
    non-empty ids, none of them the name of a member of [Object.prototype],
    the remap sends every lead of one of them to the campaign that stays for
    its folder: the first campaign of the input with the same normalized
    niche, which is in the merged campaign list; a lead of that campaign
    itself keeps its campaign. *)
Theorem remap_follows_folder
    (localCampaigns : list Campaign.t) (localLeads : list BusinessInfo.t)
    (cData : option (list Campaign.t)) (lData : option (list BusinessInfo.t)) :
  let input := unionCampaigns localCampaigns cData in
  let st := collapse input in
  NoDup (Campaign.id <$> input) →
  Forall (fun c => Campaign.id c ≠ "") input →
  Forall (fun c => Campaign.id c ∉ JsObject.members) input →
  ∀ c l, c ∈ input → BusinessInfo.campaignId l = Some (Str (Campaign.id c)) →
    ∃ i o, list_find (fun x => campaignKey x = campaignKey c) input = Some (i, o)
           ∧ o ∈ campaigns (mergeReplicas localCampaigns localLeads cData lData)
           ∧ BusinessInfo.campaignId (remapLead (leadRemapping st) l)
             = Some (Str (Campaign.id o)).
Proof.
  intros input st Hnd Hne Hmem c l Hc Hl.
  assert (Hproto : Forall (fun c => Campaign.id c ≠ "__proto__") input).
  { eapply Forall_impl; [exact Hmem|]. intros x Hx Heq. apply Hx.
    rewrite Heq. compute_done. }
  destruct (collapse_folder input collapse0 [] Hnd Hproto) with (c := c) as (o & Ho & Hor);
    [by intros ? ?%elem_of_nil | done |].
  fold (collapse input) in Ho, Hor. fold st in Ho, Hor.
  assert (Hfind : JsMap.get (campaignKey c) (nicheMap st)
                  = snd <$> list_find (fun x => campaignKey x = campaignKey c) input).
  { unfold st, collapse. by rewrite collapse_get. }
  rewrite Ho in Hfind.
  destruct (list_find _ input) as [[i o']|] eqn:Hf; simplify_eq/=.
  assert (Hin : o' ∈ JsMap.values (nicheMap st)).
  { unfold JsMap.values. apply list_elem_of_fmap. exists (campaignKey c, o').
    split; [done | by apply JsMap_get_Some_elem]. }
  exists i, o'. split_and!; [done | by rewrite merged_campaigns |].
  unfold remapCampaignId, JsObject.get. rewrite (campaignIdText_Str _ _ Hl).
  destruct Hor as [<-|Hr].
  - assert (Hnone : leadRemapping st !! Campaign.id c = None).
    { apply eq_None_not_Some. intros Hs.
      apply (collapse_remap_dom input collapse0 collapse0_remap_dom) in Hs as [Hs _].
      pose proof (collapse_ids input collapse0) as Hp. simpl in Hp.
      rewrite <- Hp in Hnd. apply NoDup_app in Hnd as (_ & Hdis & _).
      apply (Hdis (Campaign.id c)); [|done]. apply list_elem_of_fmap. by exists c. }
    rewrite Hnone. rewrite Forall_forall in Hmem.
    by rewrite decide_False by by apply Hmem.
  - rewrite Hr. rewrite Forall_forall in Hne. unfold JsString.truthy.
    rewrite bool_decide_eq_false_2; [done|]. apply Hne.
    apply list_find_Some in Hf as (Hi & _). by eapply list_elem_of_lookup_2.
Qed.

(** X19.  The remap under the conditions that the ids written by the
    application meet.  When the campaigns that enter the collapse have pairwise distinct,
    non-empty ids, no lead of the merge has the id of a campaign marked for
    removal as its [campaignId]; a lead for which the table answers with a
    string of its own gets that string, the id of a campaign that stays;
    and when a campaign is removed the leads are deduplicated after the
    remap. *)
Theorem remap_completeness
    (localCampaigns : list Campaign.t) (localLeads : list BusinessInfo.t)
    (cData : option (list Campaign.t)) (lData : option (list BusinessInfo.t)) :
  let input := unionCampaigns localCampaigns cData in
  let st := collapse input in
  let merged := mergeReplicas localCampaigns localLeads cData lData in
  NoDup (Campaign.id <$> input) →
  Forall (fun c => Campaign.id c ≠ "") input →
  (∀ l r, l ∈ leads merged → r ∈ campaignsToRemove st →
          BusinessInfo.campaignId l ≠ Some (Str r))
  ∧ (∀ l canonical,
       JsObject.get (campaignIdText l) (leadRemapping st) = JsObject.Own canonical →
       BusinessInfo.campaignId (remapLead (leadRemapping st) l) = Some (Str canonical)
       ∧ canonical ∈ Campaign.id <$> campaigns merged
       ∧ canonical ∉ campaignsToRemove st)
  ∧ (campaignsToRemove st ≠ [] →
     leads merged = uniqueLeads (remapLead (leadRemapping st) <$> unionLeads localLeads lData)).
Proof.
  intros input st merged Hnd Hne.
  assert (Hdom : ∀ r, is_Some (leadRemapping st !! r)
                      ↔ r ∈ campaignsToRemove st ∧ r ≠ "__proto__").
  { apply collapse_remap_dom, collapse0_remap_dom. }
  assert (Hcan : ∀ r canon, leadRemapping st !! r = Some canon →
                   canon ∈ Campaign.id <$> JsMap.values (nicheMap st)).
  { apply collapse_remap_canonical. intros r canon; simpl. by rewrite lookup_empty. }
  assert (Htruthy : ∀ r canon, leadRemapping st !! r = Some canon →
                      JsString.truthy canon = true).
  { intros r canon Hr%Hcan%collapse_survivors_ids.
    apply list_elem_of_fmap in Hr as (c & -> & Hc).
    rewrite Forall_forall in Hne. unfold JsString.truthy.
    by rewrite bool_decide_eq_false_2 by auto. }
  assert (Hdisj : ∀ x, x ∈ Campaign.id <$> JsMap.values (nicheMap st) →
                       x ∉ campaignsToRemove st).
  { pose proof (collapse_ids input collapse0) as Hp; simpl in Hp.
    rewrite <- Hp in Hnd. by apply NoDup_app in Hnd as (_ & ? & _). }
  assert (Hown : ∀ k canonical,
            JsObject.get k (leadRemapping st) = JsObject.Own canonical →
            leadRemapping st !! k = Some canonical).
  { intros k canonical. unfold JsObject.get.
    destruct (leadRemapping st !! k); [by intros [= ->]|].
    by destruct (decide (k ∈ JsObject.members)). }
  assert (Hremap : ∀ l canonical,
            JsObject.get (campaignIdText l) (leadRemapping st) = JsObject.Own canonical →
            BusinessInfo.campaignId (remapLead (leadRemapping st) l) = Some (Str canonical)).
  { intros l canonical Hl. simpl. unfold remapCampaignId.
    by rewrite Hl, (Htruthy _ _ (Hown _ _ Hl)). }
  split_and!.
  - intros l r Hl Hr Hcid. unfold merged in Hl. rewrite merged_leads in Hl.
    fold input in Hl. fold st in Hl.
    destruct (campaignsToRemove st) as [|r0 rs] eqn:Hrem; [by apply elem_of_nil in Hr|].
    apply uniqueLeads_elem, list_elem_of_fmap in Hl as (l0 & -> & _).
    destruct (JsObject.get (campaignIdText l0) (leadRemapping st)) as [canon| |] eqn:Hget.
    + rewrite (Hremap _ _ Hget) in Hcid. simplify_eq.
      by apply (Hdisj r); [eapply Hcan, Hown|].
    + simpl in Hcid. unfold remapCampaignId in Hcid. by rewrite Hget in Hcid.
    + simpl in Hcid. unfold remapCampaignId in Hcid. rewrite Hget in Hcid.
      rewrite (campaignIdText_Str _ _ Hcid) in Hget. unfold JsObject.get in Hget.
      destruct (leadRemapping st !! r) eqn:Hlook; [done|].
      destruct (decide (r = "__proto__")) as [->|Hp].
      * by rewrite decide_True in Hget by compute_done.
      * assert (is_Some (leadRemapping st !! r)) as [? ?] by by apply Hdom.
        congruence.
  - intros l canonical Hl. split_and!; [by apply Hremap | |].
    + unfold merged. rewrite merged_campaigns. by eapply Hcan, Hown.
    + by eapply Hdisj, Hcan, Hown.
  - intros Hrem. unfold merged. rewrite merged_leads. fold input. fold st.
    by destruct (campaignsToRemove st).
Qed.

End WithEngine.

(** * The scenarios *)

(** The properties above at concrete records, under [sampleEngine]. *)

(** The scenario of two campaigns [pizzaria] and [PIZZARIA!!]: one campaign
    stays, the first, and any survivor with its key is that very entry. *)
Lemma campaign_collapse_is_quotient_witness :
  let lc := [sampleCampaign "1" "pizzaria"; sampleCampaign "2" "PIZZARIA!!"] in
  let ll := [sampleLead "a" "11999998888" new None (Some "1");
             sampleLead "a" "11999998888" new None (Some "2")] in
  let surviving := campaigns (mergeReplicas sampleEngine lc ll None None) in
  surviving = [sampleCampaign "1" "pizzaria"]
  ∧ ∀ j B, surviving !! j = Some B →
           deriveCampaignKey sampleEngine (Campaign.niche (sampleCampaign "1" "pizzaria"))
           = deriveCampaignKey sampleEngine (Campaign.niche B) →
           0 = j ∧ sampleCampaign "1" "pizzaria" = B.
Proof.
  intros lc ll surviving. split; [vm_compute; reflexivity|].
  intros j B Hj Hkey.
  exact (proj1 (campaign_collapse_is_quotient sampleEngine lc ll None None)
               0 j (sampleCampaign "1" "pizzaria") B eq_refl Hj Hkey).
Defined.

Lemma lead_uniqueness_witness :
  let lc := [sampleCampaign "1" "pizzaria"; sampleCampaign "2" "PIZZARIA!!"] in
  let ll := [sampleLead "a" "11999998888" new None (Some "1");
             sampleLead "a" "11999998888" new None (Some "2")] in
  let merged := leads (mergeReplicas sampleEngine lc ll None None) in
  merged !! 0 = Some (sampleLead "a" "11999998888" new None (Some "1"))
  ∧ ∀ j b, merged !! j = Some b →
           BusinessInfo.id b = "a" → BusinessInfo.campaignId b = Some (Str "1") → 0 = j.
Proof.
  intros lc ll merged. split; [vm_compute; reflexivity|].
  intros j b Hj Hid Hcid.
  refine (lead_uniqueness sampleEngine lc ll None None 0 j
            (sampleLead "a" "11999998888" new None (Some "1")) b eq_refl Hj _ _).
  - by rewrite Hid.
  - by rewrite Hcid.
Defined.



Lemma mining_error_classification_witness :
  let st := mkMining [] 0 0 0 0 [] [] 0 in
  let sh := mkShown None None (0, 0, 0, 0) [] [] in
  searchBusinesses sampleWorld 1 "Moema" = Thrown "429 RESOURCE_EXHAUSTED"
  ∧ JsString.includes "429" "429 RESOURCE_EXHAUSTED" = true
  ∧ mineLoop sampleEngine sampleWorld "1" 1 ["Moema"; "Lapa"] (st, sh)
    = (st, mkShown None (Some quotaMessage) (0, 0, 0, 0) [] ["Moema"]).
Proof.
  intros st sh. split; [reflexivity|]. split; [reflexivity|].
  exact (proj1 (mining_error_classification sampleEngine sampleWorld "1" 1 "Moema" ["Lapa"]
                  st sh "429 RESOURCE_EXHAUSTED" eq_refl) eq_refl).
Defined.

(** C8 fails for a lead past the contacted stage: the WhatsApp link moves an
    interested lead back to contacted. *)
Lemma contact_transition_counterexample :
  let l := sampleLead "a" "11999998888" interested None (Some "1") in
  BusinessInfo.status <$> (clickWhatsApp l [l]).1 = [contacted]
  ∧ BusinessInfo.status <$> (clickWhatsApp l [l]).1 ≠ BusinessInfo.status <$> [l].
Proof. split; [reflexivity | discriminate]. Qed.

Lemma contact_transition_witness :
  let l := sampleLead "a" "11999998888" new None (Some "1") in
  [l] !! 0 = Some l
  ∧ (clickWhatsApp l [l]).1 !! 0 = Some (BusinessInfo.with_status contacted l)
  ∧ (clickWhatsApp l (clickWhatsApp l [l]).1).1 = (clickWhatsApp l [l]).1.
Proof.
  intros l. split; [reflexivity|]. split.
  - exact (proj1 (contact_transition l [l]) 0 l eq_refl).
  - exact (proj1 (proj2 (contact_transition l [l]))).
Defined.

Lemma update_by_id_ignores_campaign_witness :
  let a := sampleLead "a" "11999998888" new None (Some "1") in
  let b := sampleLead "a" "11999998888" closed None (Some "2") in
  BusinessInfo.status <$> (clickStatus a rejected [a; b]).1.2 = [rejected; rejected]
  ∧ BusinessInfo.campaignId <$> (clickStatus a rejected [a; b]).1.2
    = [Some (Str "1"); Some (Str "1")]
  ∧ (clickStatus a rejected [a; b]).1.2 !! 1 = Some (BusinessInfo.with_status rejected a).
Proof.
  intros a b. split; [reflexivity|]. split; [reflexivity|].
  refine (proj1 (update_by_id_ignores_campaign [a; b] 0 1 a b eq_refl eq_refl eq_refl _)
            rejected).
  discriminate.
Defined.

Lemma normalize_idempotent_witness :
  JsString.isAscii "Pizzaria & Cia!" = true
  ∧ normalize sampleEngine "Pizzaria & Cia!" = "pizzariacia"
  ∧ normalize sampleEngine (JsString.toUpperCase sampleEngine "Pizzaria & Cia!")
    = normalize sampleEngine "Pizzaria & Cia!".
Proof.
  split; [reflexivity|]. split; [reflexivity|].
  exact (proj1 (proj2 (proj2 (normalize_idempotent sampleEngine "Pizzaria & Cia!")) eq_refl)).
Defined.

Lemma resolveTarget_reuses_witness :
  let app := sampleApp None in
  JsString.isAscii (App.niche app) = true
  ∧ normalize sampleEngine "Pizzaria!" = normalize sampleEngine (App.niche app)
  ∧ targetOf sampleEngine steadyWorld
      (resubmitted (campaignsAfter sampleEngine sampleWorld app) "Pizzaria!" app)
    = targetOf sampleEngine sampleWorld app
  ∧ Campaign.niche <$> campaignsAfter sampleEngine sampleWorld app = ["PIZZARIA"].
Proof.
  intros app. split; [reflexivity|]. split; [reflexivity|]. split; [|reflexivity].
  exact (proj1 (resolveTarget_reuses sampleEngine sampleWorld steadyWorld app "Pizzaria!"
                  eq_refl eq_refl)).
Defined.

Lemma resolveTarget_keeps_one_per_niche_witness :
  let app := App.mk [sampleCampaign "1" "PIZZARIA"; sampleCampaign "2" "Padaria"] []
                    None "pizzaria" "Sao Paulo" ["Centro"] in
  campaignKey sampleEngine <$> campaignsAfter sampleEngine sampleWorld app
  = ["pizzaria"; "padaria"]
  ∧ NoDup (campaignKey sampleEngine <$> campaignsAfter sampleEngine sampleWorld app).
Proof.
  intros app. split; [reflexivity|].
  apply (resolveTarget_keeps_one_per_niche sampleEngine sampleWorld app);
    [reflexivity | compute_done | compute_done].
Defined.

Lemma mining_run_appends_witness :
  ∃ r accepted,
    handleStartMining sampleEngine sampleWorld (sampleApp None) = Some r
    ∧ currentLeadsState (runMining r) = [] ++ accepted
    ∧ totalNew (runMining r) = List.length accepted.
Proof.
  destruct (handleStartMining sampleEngine sampleWorld (sampleApp None)) as [r|] eqn:Hr;
    [|by vm_compute in Hr].
  destruct (mining_run_appends sampleEngine sampleWorld (sampleApp None) r Hr)
    as (accepted & H1 & _ & H3 & _).
  by exists r, accepted.
Defined.

Lemma mining_keeps_phones_distinct_witness :
  ∃ r, handleStartMining sampleEngine steadyWorld (sampleApp None) = Some r
       ∧ phoneKey sampleEngine <$> currentLeadsState (runMining r) = ["11999998888"]
       ∧ phonesDistinct sampleEngine (currentLeadsState (runMining r)).
Proof.
  destruct (handleStartMining sampleEngine steadyWorld (sampleApp None)) as [r|] eqn:Hr;
    [|by vm_compute in Hr].
  exists r. split; [done|]. split.
  - vm_compute in Hr. injection Hr as <-. reflexivity.
  - apply (mining_keeps_phones_distinct sampleEngine steadyWorld (sampleApp None) r Hr).
    apply NoDup_nil_2.
Defined.

Lemma mining_keeps_pairs_distinct_witness :
  ∃ r, handleStartMining sampleEngine steadyWorld (sampleApp None) = Some r
       ∧ pairsDistinct (currentLeadsState (runMining r)).
Proof.
  destruct (handleStartMining sampleEngine steadyWorld (sampleApp None)) as [r|] eqn:Hr;
    [|by vm_compute in Hr].
  exists r. split; [done|].
  apply (proj1 (mining_keeps_pairs_distinct sampleEngine steadyWorld (sampleApp None) r Hr)).
  apply NoDup_nil_2.
Defined.

Lemma mining_visits_in_order_witness :
  ∃ r, handleStartMining sampleEngine sampleWorld (sampleApp None) = Some r
       ∧ searched (runShown r) = ["Centro"; "Moema"]
       ∧ ∃ k : nat, (1 ≤ k)%nat ∧ searched (runShown r) = take k ["Centro"; "Moema"].
Proof.
  destruct (handleStartMining sampleEngine sampleWorld (sampleApp None)) as [r|] eqn:Hr;
    [|by vm_compute in Hr].
  exists r. split; [done|]. split.
  - vm_compute in Hr. injection Hr as <-. reflexivity.
  - destruct (mining_visits_in_order sampleEngine sampleWorld (sampleApp None) r Hr)
      as (k & [Hk _] & Hs & _).
    by exists k.
Defined.

Lemma union_remote_wins_witness :
  let local := sampleCampaign "1" "pizzaria" in
  let remote := Campaign.mk "1" "PIZZARIA" "RIO" "2024-02-01T00:00:00.000Z"
                            "2024-02-02T00:00:00.000Z" in
  unionCampaigns [local] (Some [remote]) = [remote]
  ∧ (remote ∈ unionCampaigns [local] (Some [remote]) →
     Campaign.id remote ∈ Campaign.id <$> [remote] → remote ∈ [remote]).
Proof.
  intros local remote. split; [reflexivity|]. intros Hin.
  exact (proj1 (proj1 (proj2 (proj2 (union_remote_wins sampleEngine [local] [remote] [] [])))
                      remote Hin)).
Defined.

Lemma derived_key_injective_witness :
  let l1 := sampleLead "bella_centro_33334444" "1133334444" new None (Some "1") in
  let l2 := sampleLead "bella_centro_33334444" "1133334444" closed None (Some "1") in
  BusinessInfo.id l1 = createNormalizedId sampleEngine "Bella" "(11) 3333-4444" "Centro"
  ∧ leadKey sampleEngine l1 = leadKey sampleEngine l2
  ∧ BusinessInfo.campaignId l1 = BusinessInfo.campaignId l2.
Proof.
  intros l1 l2. split; [reflexivity|]. split; [reflexivity|].
  exact (proj2 (proj2 (proj2 (proj2 (derived_key_injective sampleEngine l1 l2
           "Bella" "(11) 3333-4444" "Centro" "Bella" "(11) 3333-4444" "Centro"
           eq_refl eq_refl)) eq_refl)) "1" "1" eq_refl eq_refl).
Defined.

Lemma folder_deletion_witness :
  let cs := [sampleCampaign "1" "PIZZARIA"; sampleCampaign "2" "pizzaria";
             sampleCampaign "3" "Padaria"] in
  let ls := [sampleLead "a" "11999998888" new None (Some "1");
             sampleLead "b" "11999997777" new None (Some "2");
             sampleLead "c" "11999996666" new None (Some "3")] in
  let d := handleDeleteCampaign sampleEngine "2" true cs ls (Some "1") in
  list_find (fun c => Campaign.id c = "2") cs = Some (1, sampleCampaign "2" "pizzaria")
  ∧ idsToDelete d = ["1"; "2"]
  ∧ keptCampaigns d = [sampleCampaign "3" "Padaria"]
  ∧ keptFolderLeads d = [sampleLead "c" "11999996666" new None (Some "3")]
  ∧ "2" ∈ idsToDelete d.
Proof.
  intros cs ls d. split_and!; try reflexivity.
  exact (proj1 (proj2 (proj2 (folder_deletion sampleEngine "2" cs ls (Some "1")))
                 1 (sampleCampaign "2" "pizzaria") eq_refl)).
Defined.

Lemma cleanup_keeps_every_phone_witness :
  let older := sampleLead "a" "11999998888" new (Some "2024-01-01") (Some "1") in
  let newer := sampleLead "b" "(11) 99999-8888" new (Some "2024-01-02") (Some "1") in
  handleCleanDuplicates sampleEngine None [] [older; newer] = [newer]
  ∧ ∃ k, k ∈ handleCleanDuplicates sampleEngine None [] [older; newer]
         ∧ phoneKey sampleEngine k = phoneKey sampleEngine older.
Proof.
  intros older newer. split; [vm_compute; reflexivity|].
  destruct (cleanup_keeps_every_phone sampleEngine None [] [older; newer]) with (l := older)
    as (k & Hk & _ & Hp).
  - compute_done.
  - compute_done.
  - by vm_compute.
  - by exists k.
Defined.

Lemma view_and_cleanup_scope_witness :
  let cs := [sampleCampaign "1" "PIZZARIA"; sampleCampaign "2" "Padaria"] in
  let ls := [sampleLead "a" "11999998888" new None (Some "1");
             sampleLead "b" "11999997777" new None (Some "2")] in
  filteredLeads sampleEngine ls cs (Some "1") "all" ""
  = [sampleLead "a" "11999998888" new None (Some "1")]
  ∧ filteredLeads sampleEngine ls cs (Some "1") "all" "" = targetLeads (Some "1") cs ls
  ∧ filteredLeads sampleEngine ls cs (Some "9") "all" "" = ls
  ∧ targetLeads (Some "9") cs ls = [].
Proof.
  intros cs ls. split; [reflexivity|]. split.
  - refine (proj1 (proj2 (view_and_cleanup_scope sampleEngine ls cs)) "1" 0
              (sampleCampaign "1" "PIZZARIA") _ eq_refl _); discriminate.
  - refine (proj1 (proj2 (proj2 (view_and_cleanup_scope sampleEngine ls cs))) "9" _ _);
      [discriminate | compute_done].
Defined.

Lemma withRetry_spec_witness :
  let quota := JsError.mk (Some "got 429 from the provider") None in
  let fn := fun i : nat => match i with
                           | O => Throws quota
                           | S _ => Returns 7
                           end in
  withRetry fn 2 = (Fulfils 7, [5000%Z])
  ∧ withRetry (fun _ : nat => Throws (A := nat) quota) 2
    = (Rejects (Some quota), [5000%Z; 10000%Z]).
Proof.
  intros quota fn. split.
  - refine (proj1 (withRetry_spec fn 2 1 _) _ _).
    + intros j Hj. exists quota. by replace j with 0 by lia.
    + lia.
    + simpl. discriminate.
  - refine (proj1 (proj2 (withRetry_spec (fun _ => Throws quota) 2 2 _)) eq_refl _ quota eq_refl).
    + intros j Hj. by exists quota.
    + lia.
Defined.

Lemma business_record_shape_witness :
  ∃ b, businessOfBlock sampleEngine (Some "Bella") "+55 (11) 99999-8888" None None "Centro"
       = Some b
       ∧ BusinessInfo.phone b = "11999998888"
       ∧ BusinessInfo.id b = "bella_centro_99998888"
       ∧ BusinessInfo.type b = mobile
       ∧ String.length (BusinessInfo.phone b) = 11.
Proof.
  destruct (businessOfBlock sampleEngine (Some "Bella") "+55 (11) 99999-8888" None None
              "Centro") as [b|] eqn:Hb; [|by vm_compute in Hb].
  exists b. split; [done|].
  destruct (proj2 (business_record_shape sampleEngine (Some "Bella") "+55 (11) 99999-8888"
                     None None "Centro") b Hb)
    as (_ & _ & _ & _ & _ & _ & _ & Hmobile & _).
  assert (Hb' := Hb). vm_compute in Hb'. injection Hb' as <-.
  split; [reflexivity|]. split; [reflexivity|]. split; [reflexivity|].
  by apply Hmobile.
Defined.

Lemma remap_follows_folder_witness :
  let lc := [sampleCampaign "1" "pizzaria"; sampleCampaign "2" "PIZZARIA!!"] in
  let l := sampleLead "a" "11999998888" new None (Some "2") in
  campaignKey sampleEngine (sampleCampaign "2" "PIZZARIA!!") = "pizzaria"
  ∧ ∃ i o, list_find (fun x => campaignKey sampleEngine x = "pizzaria") lc = Some (i, o)
           ∧ BusinessInfo.campaignId
               (remapLead sampleEngine
                  (leadRemapping (collapse sampleEngine (unionCampaigns lc None))) l)
             = Some (Str (Campaign.id o)).
Proof.
  intros lc l. split; [reflexivity|].
  destruct (remap_follows_folder sampleEngine lc [] None None) with
    (c := sampleCampaign "2" "PIZZARIA!!") (l := l) as (i & o & Hf & _ & Hr).
  - compute_done.
  - repeat constructor; discriminate.
  - repeat constructor; compute_done.
  - compute_done.
  - reflexivity.
  - by exists i, o.
Defined.

Lemma remap_completeness_witness :
  let lc := [sampleCampaign "1" "pizzaria"; sampleCampaign "2" "PIZZARIA!!"] in
  let ll := [sampleLead "a" "11999998888" new None (Some "1");
             sampleLead "a" "11999998888" new None (Some "2")] in
  campaignsToRemove (collapse sampleEngine (unionCampaigns lc None)) = ["2"]
  ∧ leads (mergeReplicas sampleEngine lc ll None None)
    = [sampleLead "a" "11999998888" new None (Some "1")]
  ∧ ∀ l, l ∈ leads (mergeReplicas sampleEngine lc ll None None) →
         BusinessInfo.campaignId l ≠ Some (Str "2").
Proof.
  intros lc ll. split; [vm_compute; reflexivity|]. split; [vm_compute; reflexivity|].
  intros l Hl.
  refine (proj1 (remap_completeness sampleEngine lc ll None None _ _) l "2" Hl _).
  - compute_done.
  - repeat constructor; discriminate.
  - compute_done.
Defined.
